(** * Upload relay server (src/server.js): token cache, chunked Dropbox
    upload and the [/upload] route, as a shallow embedding.

    The remote service (Dropbox) is an oracle [server] that answers each
    [fetch] from the history of earlier calls; the ZIP producer ([archiver])
    is an oracle [archive_zip].  Process state (the module-level
    [accessToken] / [tokenExpiry] variables, the local disk and the log of
    remote calls) is threaded explicitly through a small state-and-error
    monad. *)

From Stdlib Require Import String Ascii List ZArith NArith Arith Lia Bool.
Import ListNotations.
Open Scope string_scope.

(** ** Data model *)

Definition bytes := list Byte.byte.

(** One outgoing HTTP request ([fetch]) to Dropbox.  Headers that are the
    same on every call of a kind (bearer token, content type, [mode:"add"],
    [autorename:true], [mute:false]) are not recorded. *)
Inductive call : Type :=
| TokenRefresh                                        (* oauth2/token *)
| FilesUpload (path : string) (body : bytes)          (* files/upload *)
| SessionStart (body : bytes)                         (* upload_session/start *)
| SessionAppend (session_id : option string) (offset : nat) (body : bytes)
                                                      (* upload_session/append_v2 *)
| SessionFinish (session_id : option string) (offset : nat) (path : string).
                                                      (* upload_session/finish *)

(** What the code reads from a response: [response.ok],
    [response.statusText] and the fields of the parsed JSON body
    ([access_token], [expires_in], [session_id]; [metadata] stands for the
    file metadata returned by the upload calls). *)
Record response := mk_response {
  ok : bool;
  statusText : string;
  access_token : option string;
  expires_in : Z;
  session_id : option string;
  metadata : string
}.

(** Process state: the two module-level token variables, the local disk
    (path -> contents) and the calls made so far. *)
Record world := mk_world {
  accessToken : option string;
  tokenExpiry : option Z;
  fs : string -> option bytes;
  trace : list call
}.

Definition set_trace (w : world) (t : list call) : world :=
  mk_world (accessToken w) (tokenExpiry w) (fs w) t.

Definition set_token (w : world) (tok : option string) (exp : option Z) : world :=
  mk_world tok exp (fs w) (trace w).

Definition set_fs (w : world) (f : string -> option bytes) : world :=
  mk_world (accessToken w) (tokenExpiry w) f (trace w).

(** [fs.writeFileSync]-like update and [fs.unlinkSync]. *)
Definition fs_write (w : world) (p : string) (b : bytes) : world :=
  set_fs w (fun q => if String.eqb q p then Some b else fs w q).

Definition fs_unlink (w : world) (p : string) : world :=
  set_fs w (fun q => if String.eqb q p then None else fs w q).

Definition existsSync (w : world) (p : string) : bool :=
  match fs w p with Some _ => true | None => false end.

(** ** A state-and-error monad: a rejected promise is [Throw msg]. *)

Inductive outcome (A : Type) : Type :=
| Ok (a : A)
| Throw (msg : string).
Arguments Ok {A} a.
Arguments Throw {A} msg.

Definition M (A : Type) : Type := world -> outcome A * world.

Definition ret {A} (a : A) : M A := fun w => (Ok a, w).
Definition throw {A} (msg : string) : M A := fun w => (Throw msg, w).
Definition bind {A B} (m : M A) (k : A -> M B) : M B := fun w =>
  match m w with
  | (Ok a, w') => k a w'
  | (Throw e, w') => (Throw e, w')
  end.

Notation "x <- m ;; k" := (bind m (fun x => k))
  (at level 61, m at next level, right associativity).

(** ** JavaScript truthiness of the values the code tests *)

Definition str_truthy (o : option string) : bool :=
  match o with Some s => negb (String.eqb s "") | None => false end.

Definition num_truthy (o : option Z) : bool :=
  match o with Some z => negb (Z.eqb z 0) | None => false end.

(** ** Configuration *)

Definition uploadPath : string := "/test".

(** [const CHUNK_SIZE = 100 * 1024 * 1024] in [uploadToDropbox]. *)
Definition CHUNK_SIZE : N := 100 * 1024 * 1024.

(** [fs.createReadStream(filePath, { highWaterMark })] over a regular file:
    [for await] receives Buffers of [highWaterMark] bytes, the last one
    shorter, never an empty one. *)
Fixpoint split_at_N {A} (k : N) (l : list A) : list A * list A :=
  match l with
  | [] => ([], [])
  | x :: r =>
      if (k =? 0)%N then ([], l)
      else let '(a, b) := split_at_N (N.pred k) r in (x :: a, b)
  end.

Fixpoint read_chunks (fuel : nat) (highWaterMark : N) (l : bytes) : list bytes :=
  match fuel with
  | O => []
  | S f =>
      match l with
      | [] => []
      | _ => let '(chunk, rest) := split_at_N highWaterMark l in
             chunk :: read_chunks f highWaterMark rest
      end
  end.

Definition createReadStream (highWaterMark : N) (content : bytes) : list bytes :=
  read_chunks (length content) highWaterMark content.

Section Remote.

(** The Dropbox endpoints: the answer to a call may depend on every call
    made before it. *)
Variable server : list call -> call -> response.

Definition fetch (c : call) : M response := fun w =>
  (Ok (server (trace w) c), set_trace w (trace w ++ [c])).

(** ** [refreshAccessToken] (lines 69-103) *)

Definition refresh_exchange (now : Z) : M string :=
  data <- fetch TokenRefresh ;;
  match access_token data with
  | Some t =>
      if negb (String.eqb t "") then
        (fun w => (Ok t, set_token w (Some t) (Some (now + expires_in data * 1000)%Z)))
      else throw "Impossible d'obtenir le token"
  | None => throw "Impossible d'obtenir le token"
  end.

(** [now] is [Date.now()], in milliseconds. *)
Definition refreshAccessToken (now : Z) : M string := fun w =>
  match accessToken w, tokenExpiry w with
  | Some t, Some e =>
      if str_truthy (Some t) && num_truthy (Some e) && (now <? e)%Z
      then ret t w
      else refresh_exchange now w
  | _, _ => refresh_exchange now w
  end.

(** ** [uploadToDropbox] (lines 143-269) *)

(** The [for await (const chunk of fileStream)] loop; returns the final
    [sessionId] and [offset]. *)
Fixpoint upload_chunks (chunks : list bytes) (sessionId : option string)
    (offset : nat) : M (option string * nat) :=
  match chunks with
  | [] => ret (sessionId, offset)
  | chunk :: rest =>
      sid <- (if negb (str_truthy sessionId) then
                startResponse <- fetch (SessionStart chunk) ;;
                if ok startResponse then ret (session_id startResponse)
                else throw ("Erreur démarrage session: " ++ statusText startResponse)
              else
                appendResponse <- fetch (SessionAppend sessionId offset chunk) ;;
                if ok appendResponse then ret sessionId
                else throw ("Erreur append chunk: " ++ statusText appendResponse)) ;;
      upload_chunks rest sid (offset + length chunk)
  end.

(** The body of [uploadToDropbox] with its chunk-size constant as a
    parameter; a missing file makes [fs.statSync] throw. *)
Definition uploadToDropbox_with (chunk_size : N) (filePath fileName token : string)
    : M string := fun w =>
  match fs w filePath with
  | None => (Throw ("ENOENT: " ++ filePath), w)
  | Some content =>
      let fileSize := length content in
      let dropboxPath := uploadPath ++ "/" ++ fileName in
      (if (N.of_nat fileSize <=? chunk_size)%N then
         response <- fetch (FilesUpload dropboxPath content) ;;
         if ok response then ret (metadata response)
         else throw ("Erreur Dropbox: " ++ statusText response)
       else
         st <- upload_chunks (createReadStream chunk_size content) None 0 ;;
         finishResponse <- fetch (SessionFinish (fst st) (snd st) dropboxPath) ;;
         if ok finishResponse then ret (metadata finishResponse)
         else throw ("Erreur finalisation: " ++ statusText finishResponse)) w
  end.

Definition uploadToDropbox (filePath fileName token : string) : M string :=
  uploadToDropbox_with CHUNK_SIZE filePath fileName token.

End Remote.

(** ** The [/upload] route (lines 272-372) *)

(** A file staged by multer: [file.originalname], [file.path], [file.size]. *)
Record upfile := mk_upfile {
  originalname : string;
  path : string;
  size : nat
}.

(** [req.body]: form field name -> value ([None] when absent). *)
Definition form := string -> option string.

(** A UTC instant as [new Date()] reports it through [toISOString]. *)
Record datetime := mk_datetime {
  year : nat; month : nat; day : nat;
  hours : nat; minutes : nat; seconds : nat; millis : nat
}.

Fixpoint dec_aux (fuel n : nat) (acc : string) : string :=
  match fuel with
  | O => acc
  | S f =>
      let acc' := String (ascii_of_nat (48 + Nat.modulo n 10)) acc in
      if Nat.ltb n 10 then acc' else dec_aux f (Nat.div n 10) acc'
  end.

(** Decimal digits of [n]. *)
Definition dec (n : nat) : string := dec_aux (S n) n "".

Fixpoint zeros (k : nat) : string :=
  match k with O => "" | S k' => String "0" (zeros k') end.

(** Zero padding to [k] digits, as [toISOString] does. *)
Definition pad (k n : nat) : string :=
  let s := dec n in zeros (k - String.length s) ++ s.

(** [Date.prototype.toISOString] for years 0000-9999:
    [YYYY-MM-DDTHH:mm:ss.sssZ]. *)
Definition toISOString (d : datetime) : string :=
  pad 4 (year d) ++ "-" ++ pad 2 (month d) ++ "-" ++ pad 2 (day d) ++ "T" ++
  pad 2 (hours d) ++ ":" ++ pad 2 (minutes d) ++ ":" ++ pad 2 (seconds d) ++
  "." ++ pad 3 (millis d) ++ "Z".

(** [s.split("T")[0]]. *)
Fixpoint split_T_0 (s : string) : string :=
  match s with
  | EmptyString => EmptyString
  | String c r => if Ascii.eqb c "T"%char then EmptyString else String c (split_T_0 r)
  end.

(** [s.replace(/-/g, "")]. *)
Fixpoint remove_dashes (s : string) : string :=
  match s with
  | EmptyString => EmptyString
  | String c r => if Ascii.eqb c "-"%char then remove_dashes r else String c (remove_dashes r)
  end.

Definition dateStr (d : datetime) : string := remove_dashes (split_T_0 (toISOString d)).

(** [formData.fieldN || dflt]. *)
Definition or_default (o : option string) (dflt : string) : string :=
  match o with Some s => if String.eqb s "" then dflt else s | None => dflt end.

(** [archiveName = `${dateStr}_${nom}_${prenom}_${morceau}.zip`]. *)
Definition archiveName (d : datetime) (formData : form) : string :=
  let nom := or_default (formData "field1") "inconnu" in
  let prenom := or_default (formData "field2") "inconnu" in
  let morceau := or_default (formData "field5") "projet" in
  dateStr d ++ "_" ++ nom ++ "_" ++ prenom ++ "_" ++ morceau ++ ".zip".

Definition archivePath (d : datetime) (formData : form) : string :=
  "./uploads/" ++ archiveName d formData.

(** [`${formData.fieldN}`]: an absent field prints as [undefined]. *)
Definition tmpl (o : option string) : string :=
  match o with Some s => s | None => "undefined" end.

Definition nl : string := String (ascii_of_nat 10) "".

Definition infoContent (formData : form) : string :=
  "=== INFORMATIONS DU PROJET ===" ++ nl ++ nl ++
  "Contact technique:" ++ nl ++
  "- Nom: " ++ tmpl (formData "field1") ++ nl ++
  "- Prénom: " ++ tmpl (formData "field2") ++ nl ++
  "- Email: " ++ tmpl (formData "field3") ++ nl ++
  "- Téléphone: " ++ tmpl (formData "field4") ++ nl ++ nl ++
  "Informations du morceau:" ++ nl ++
  "- Nom du morceau: " ++ tmpl (formData "field5") ++ nl ++
  "- Artiste: " ++ tmpl (formData "field6") ++ nl ++
  "- BPM: " ++ tmpl (formData "field7") ++ nl ++
  "- Signature rythmique: " ++ tmpl (formData "field8") ++ nl ++
  "- Durée totale: " ++ tmpl (formData "field9") ++ nl ++ nl ++
  "Informations techniques:" ++ nl ++
  "- Liste des stems: " ++ tmpl (formData "field10") ++ nl ++
  "- Stems témoins: " ++ tmpl (formData "field11") ++ nl ++
  "- Contraintes artistiques: " ++ tmpl (formData "field12") ++ nl.

(** JSON bodies sent back by the route. *)
Inductive reply : Type :=
| RFail (message : string)                             (* {success:false, message} *)
| ROk (message archiveName : string) (filesCount totalSize : nat).
                                                       (* {success:true, ...} *)

(** How a request ends: [res.status(s).json(body)] ([res.json] is status
    200), or an exception escaping the handler's [try]: the listener
    [archive.on("error", (err) => { throw err; })] runs inside the
    archiver's event emission, not inside the awaiting [try], so the
    error is uncaught and no response is sent. *)
Inductive relay_result : Type :=
| Responded (status : Z) (body : reply)
| Crashed (err : string).

(** [files.forEach(file => { if (fs.existsSync(file.path)) fs.unlinkSync(file.path); })]. *)
Fixpoint unlink_staged (files : list upfile) (w : world) : world :=
  match files with
  | [] => w
  | f :: r => unlink_staged r (if existsSync w (path f) then fs_unlink w (path f) else w)
  end.

Definition totalSize (files : list upfile) : nat :=
  fold_left (fun sum f => sum + size f) files 0.

Section Route.

Variable server : list call -> call -> response.

(** The archiver: from the entries [(file.originalname, contents of
    file.path)] and the [informations.txt] text, the bytes written to the
    output stream, or [None] when it emits ["error"] while producing them
    (reading an entry or compressing, after the route has reached
    [await archive.finalize()]). *)
Variable archive_zip : list (string * option bytes) -> string -> option bytes.

(** The handler of [app.post("/upload", ...)]: [now] is the [Date.now()]
    read by [refreshAccessToken], [date] the [new Date()] of line 289. *)
Definition relay (files : list upfile) (formData : form) (now : Z) (date : datetime)
    (w : world) : relay_result * world :=
  match files with
  | [] => (Responded 400 (RFail "Aucun fichier uploadé"), w)
  | _ :: _ =>
      match refreshAccessToken server now w with
      | (Throw e, w1) => (Responded 500 (RFail e), w1)
      | (Ok token, w1) =>
          let name := archiveName date formData in
          let apath := archivePath date formData in
          let entries := map (fun f => (originalname f, fs w1 (path f))) files in
          match archive_zip entries (infoContent formData) with
          | None => (Crashed "archiver error", fs_write w1 apath [])
          | Some zip =>
              let w2 := fs_write w1 apath zip in
              match uploadToDropbox server apath name token w2 with
              | (Throw e, w3) => (Responded 500 (RFail e), w3)
              | (Ok _, w3) =>
                  let w4 := unlink_staged files w3 in
                  let w5 := if existsSync w4 apath then fs_unlink w4 apath else w4 in
                  (Responded 200 (ROk "Upload réussi" name (length files) (totalSize files)), w5)
              end
          end
      end
  end.

End Route.

Close Scope string_scope.

(** ** Observations on the log of remote calls *)

(** The [offset] argument of an append or finish call. *)
Definition offset_of (c : call) : option nat :=
  match c with
  | SessionAppend _ o _ | SessionFinish _ o _ => Some o
  | _ => None
  end.

(** Bytes carried in the body of a call. *)
Definition body_len (c : call) : nat :=
  match c with
  | FilesUpload _ b | SessionStart b | SessionAppend _ _ b => length b
  | _ => 0
  end.

Definition sent (calls : list call) : nat := list_sum (map body_len calls).

Definition is_token (c : call) : bool := match c with TokenRefresh => true | _ => false end.
Definition is_upload (c : call) : bool := match c with FilesUpload _ _ => true | _ => false end.
Definition is_start (c : call) : bool := match c with SessionStart _ => true | _ => false end.
Definition is_append (c : call) : bool := match c with SessionAppend _ _ _ => true | _ => false end.
Definition is_finish (c : call) : bool := match c with SessionFinish _ _ _ => true | _ => false end.

Definition count (p : call -> bool) (calls : list call) : nat := length (filter p calls).

(** The token cache holds a token that [refreshAccessToken] may hand out
    at time [now]: a token is cached and [now] is before its expiry. *)
Definition cache_valid (w : world) (now : Z) : Prop :=
  exists t e, accessToken w = Some t /\ t <> ""%string /\ tokenExpiry w = Some e /\ (now < e)%Z.

(** The bytes a call carries, and the Dropbox path it writes to. *)
Definition call_body (c : call) : bytes :=
  match c with
  | FilesUpload _ b | SessionStart b | SessionAppend _ _ b => b
  | _ => []
  end.

Definition call_path (c : call) : option string :=
  match c with
  | FilesUpload p _ | SessionFinish _ _ p => Some p
  | _ => None
  end.


(** Invariant of the token cache: both variables set or both [null], and
    never an empty token. *)
Definition token_inv (w : world) : Prop :=
  (accessToken w = None <-> tokenExpiry w = None) /\
  (forall t, accessToken w = Some t -> t <> ""%string).

(** ** The [/test-connection] route (lines 106-140) *)

(** What the route reads from the [users/get_current_account] answer:
    [response.ok], [data.name] ([None] when absent, else its
    [display_name]), [data.email] and [data.error_summary]. *)
Record account_response := mk_account_response {
  acc_ok : bool;
  acc_name : option (option string);
  acc_email : option string;
  error_summary : option string
}.

Section TestConnection.

Variable server : list call -> call -> response.

(** The account endpoint, answering with parsed JSON; the lookup changes
    nothing on Dropbox and is not written to the log of upload calls. *)
Variable account_server : list call -> account_response.

(** The handler: every outcome is [res.json({success, message})]
    (status 200).  Reading [data.name.display_name] when [data.name] is
    absent throws a TypeError, caught by the handler. *)
Definition test_connection (now : Z) (w : world) : (bool * string) * world :=
  match refreshAccessToken server now w with
  | (Throw e, w1) => ((false, "Erreur de connexion: " ++ e)%string, w1)
  | (Ok token, w1) =>
      let data := account_server (trace w1) in
      if acc_ok data then
        match acc_name data with
        | Some dn =>
            ((true, "Connecté en tant que: " ++ tmpl dn ++ nl ++ "Email: " ++
                    tmpl (acc_email data))%string, w1)
        | None =>
            ((false, "Erreur de connexion: Cannot read properties of undefined (reading 'display_name')")%string, w1)
        end
      else ((false, "Erreur: " ++ or_default (error_summary data) "Impossible de se connecter")%string, w1)
  end.

End TestConnection.

(** ** Concrete inputs *)

Definition sample_date : datetime := mk_datetime 2026 10 19 9 30 0 0.

Definition no_fields : form := fun _ => None.

Definition only_field (k v : string) : form :=
  fun k' => if String.eqb k' k then Some v else None.

Definition staged_file : upfile := mk_upfile "stem.wav" "./uploads/1_stem.wav" 3.

(** Fresh process: empty token cache, one staged upload on disk. *)
Definition staged_world : world :=
  mk_world None None
    (fun p => if String.eqb p "./uploads/1_stem.wav"
              then Some [Byte.x01; Byte.x02; Byte.x03] else None)
    [].

(** Dropbox accepting every call. *)
Definition accepting_server : list call -> call -> response :=
  fun _ _ => mk_response true "OK" (Some "sl.token"%string) 14400
               (Some "sess:1"%string) "{}".

(** A token endpoint answering [{"error": "invalid_grant"}]. *)
Definition tokenless_server : list call -> call -> response :=
  fun _ _ => mk_response false "Bad Request" None 0 None "{}".

(** Dropbox refusing the single-shot upload. *)
Definition storage_full_server : list call -> call -> response :=
  fun h c => match c with
             | FilesUpload _ _ => mk_response false "Insufficient Storage" None 0 None "{}"
             | _ => accepting_server h c
             end.

Definition zip_ok : list (string * option bytes) -> string -> option bytes :=
  fun _ _ => Some [Byte.x50; Byte.x4b].

(** An archiver that emits ["error"]. *)
Definition zip_error : list (string * option bytes) -> string -> option bytes :=
  fun _ _ => None.


(** The account endpoint answering for a known account. *)
Definition account_known : list call -> account_response :=
  fun _ => mk_account_response true (Some (Some "Nico"%string))
             (Some "nico@example.com"%string) None.

(** ** Lemmas on lists and the read stream *)

Lemma split_at_N_spec {A} (k : N) (l : list A) :
  split_at_N k l = (firstn (N.to_nat k) l, skipn (N.to_nat k) l).
Proof.
  revert k; induction l as [|x r IH]; intros k; simpl.
  - destruct (N.to_nat k); reflexivity.
  - destruct (N.eqb_spec k 0) as [->|Hk]; [reflexivity|].
    rewrite IH. replace (N.to_nat k) with (S (N.to_nat (N.pred k))) by lia.
    reflexivity.
Qed.

Lemma read_chunks_nil fuel hwm : read_chunks fuel hwm [] = [].
Proof. destruct fuel; reflexivity. Qed.

Lemma read_chunks_cons fuel hwm l :
  l <> [] ->
  read_chunks (S fuel) hwm l =
  firstn (N.to_nat hwm) l :: read_chunks fuel hwm (skipn (N.to_nat hwm) l).
Proof.
  intros Hl. simpl. rewrite split_at_N_spec.
  destruct l; [congruence|reflexivity].
Qed.

Lemma skipn_length_lt {A} (c : nat) (l : list A) :
  0 < c -> l <> [] -> length (skipn c l) < length l.
Proof.
  intros Hc Hl. rewrite length_skipn. destruct l; [congruence|cbn [length]; lia].
Qed.

Lemma firstn_nonempty {A} (c : nat) (l : list A) :
  0 < c -> l <> [] -> firstn c l <> [].
Proof.
  intros Hc Hl. destruct c; [lia|]. destruct l; [congruence|discriminate].
Qed.

Section ReadStream.

Variable hwm : N.
Hypothesis hwm_pos : (0 < hwm)%N.

Lemma read_chunks_concat fuel l :
  length l <= fuel -> concat (read_chunks fuel hwm l) = l.
Proof.
  revert l; induction fuel as [|fuel IH]; intros l Hlen.
  - destruct l; [reflexivity|simpl in Hlen; lia].
  - destruct l as [|x r]; [reflexivity|].
    rewrite read_chunks_cons by discriminate. simpl concat.
    rewrite IH; [apply firstn_skipn|].
    pose proof (skipn_length_lt (N.to_nat hwm) (x :: r)) as H.
    assert (0 < N.to_nat hwm) by lia.
    specialize (H ltac:(lia) ltac:(discriminate)). lia.
Qed.

Lemma read_chunks_nonempty fuel l :
  Forall (fun ch => ch <> []) (read_chunks fuel hwm l).
Proof.
  revert l; induction fuel as [|fuel IH]; intros l; [constructor|].
  destruct l as [|x r]; [constructor|].
  rewrite read_chunks_cons by discriminate. constructor; [|apply IH].
  apply firstn_nonempty; [lia|discriminate].
Qed.

Lemma ceil_step (n c : nat) :
  0 < c -> 1 <= n -> (n + c - 1) / c = S ((n - c + c - 1) / c).
Proof.
  intros Hc Hn. destruct (Nat.le_gt_cases n c) as [Hle|Hgt].
  - replace (n - c + c - 1) with (c - 1) by lia.
    rewrite (Nat.div_small (c - 1) c) by lia.
    symmetry. apply (Nat.div_unique _ _ 1 (n - 1)); lia.
  - replace (n + c - 1) with ((n - c + c - 1) + 1 * c) by lia.
    rewrite Nat.div_add by lia. lia.
Qed.

Lemma read_chunks_length fuel l :
  length l <= fuel ->
  length (read_chunks fuel hwm l) = (length l + N.to_nat hwm - 1) / N.to_nat hwm.
Proof.
  assert (Hc : 0 < N.to_nat hwm) by lia.
  revert l; induction fuel as [|fuel IH]; intros l Hlen.
  - destruct l; [|simpl in Hlen; lia]. simpl.
    symmetry. apply Nat.div_small. lia.
  - destruct l as [|x r].
    + simpl. symmetry. apply Nat.div_small. lia.
    + rewrite read_chunks_cons by discriminate. simpl length at 1.
      pose proof (skipn_length_lt (N.to_nat hwm) (x :: r) Hc ltac:(discriminate)) as Hs.
      rewrite IH by lia. rewrite length_skipn.
      rewrite (ceil_step (length (x :: r))) by (simpl; lia). reflexivity.
Qed.

End ReadStream.

Lemma app_cons_split {A} (l1 l2 pre post : list A) (c : A) :
  l1 ++ l2 = pre ++ c :: post ->
  (exists pre', pre = l1 ++ pre' /\ l2 = pre' ++ c :: post) \/
  (exists post', l1 = pre ++ c :: post' /\ post = post' ++ l2).
Proof.
  revert pre; induction l1 as [|x l1 IH]; intros pre H.
  - left. exists pre. split; [reflexivity|exact H].
  - destruct pre as [|y pre]; simpl in H; injection H as <- H.
    + right. exists l1. split; [reflexivity|exact (eq_sym H)].
    + destruct (IH pre H) as [[pre' [-> E]]|[post' [-> E]]].
      * left. exists pre'. split; [reflexivity|exact E].
      * right. exists post'. split; [reflexivity|exact E].
Qed.

Lemma sent_app l1 l2 : sent (l1 ++ l2) = sent l1 + sent l2.
Proof. unfold sent. rewrite map_app, list_sum_app. reflexivity. Qed.

Lemma sent_cons c l : sent (c :: l) = body_len c + sent l.
Proof. reflexivity. Qed.

Lemma count_app p l1 l2 : count p (l1 ++ l2) = count p l1 + count p l2.
Proof. unfold count. rewrite filter_app, length_app. reflexivity. Qed.

Lemma set_trace_trace w t : trace (set_trace w t) = t.
Proof. reflexivity. Qed.

Lemma set_trace_twice w t1 t2 : set_trace (set_trace w t1) t2 = set_trace w t2.
Proof. reflexivity. Qed.

Lemma set_trace_self w : set_trace w (trace w) = w.
Proof. destruct w; reflexivity. Qed.

Section Loop.

Variable server : list call -> call -> response.

(** One turn of the [for await] loop. *)
Lemma upload_chunks_step ch rest sid off w :
  upload_chunks server (ch :: rest) sid off w =
  let c0 := if str_truthy sid then SessionAppend sid off ch else SessionStart ch in
  let r0 := server (trace w) c0 in
  let w1 := set_trace w (trace w ++ [c0]) in
  if ok r0
  then upload_chunks server rest (if str_truthy sid then sid else session_id r0)
         (off + length ch) w1
  else ((Throw ((if str_truthy sid then "Erreur append chunk: "
                 else "Erreur démarrage session: ") ++ statusText r0))%string, w1).
Proof.
  simpl. unfold bind, fetch. destruct (str_truthy sid); simpl;
    destruct (ok _); reflexivity.
Qed.

(** What the loop does against any server: it only appends to the log;
    every call carries a non-empty chunk and its offset is the number of
    bytes sent before it; a failed call is the last one and the loop
    throws; on success the returned offset counts every byte sent. *)
Lemma upload_chunks_spec chunks : forall sid off w,
  Forall (fun ch => ch <> []) chunks ->
  exists calls,
    snd (upload_chunks server chunks sid off w) = set_trace w (trace w ++ calls) /\
    (forall pre c post, calls = pre ++ c :: post ->
       0 < body_len c /\ (forall o, offset_of c = Some o -> o = off + sent pre)) /\
    (forall pre c post, calls = pre ++ c :: post ->
       ok (server (trace w ++ pre) c) = false ->
       post = [] /\ exists e, fst (upload_chunks server chunks sid off w) = Throw e) /\
    (forall v, fst (upload_chunks server chunks sid off w) = Ok v -> snd v = off + sent calls).
Proof.
  induction chunks as [|ch rest IH]; intros sid off w Hne.
  - exists []. rewrite app_nil_r, set_trace_self. split; [|split; [|split]].
    + reflexivity.
    + intros pre c post H. destruct pre; discriminate.
    + intros pre c post H. destruct pre; discriminate.
    + intros v Hv. simpl in Hv. injection Hv as <-. simpl. change (sent []) with 0. lia.
  - inversion Hne as [|? ? Hch Hrest]; subst.
    rewrite upload_chunks_step. cbv zeta.
    set (c0 := if str_truthy sid then SessionAppend sid off ch else SessionStart ch).
    assert (Hb0 : body_len c0 = length ch) by (subst c0; destruct (str_truthy sid); reflexivity).
    assert (Hlen0 : 0 < length ch) by (destruct ch; [congruence|simpl; lia]).
    assert (Ho0 : forall o, offset_of c0 = Some o -> o = off)
      by (subst c0; destruct (str_truthy sid); simpl; congruence).
    destruct (ok (server (trace w) c0)) eqn:Hok.
    + set (w1 := set_trace w (trace w ++ [c0])).
      set (sid' := if str_truthy sid then sid else session_id (server (trace w) c0)).
      destruct (IH sid' (off + length ch) w1 Hrest)
        as (calls & Hw & Hoff & Hfail & Hres).
      exists (c0 :: calls). split; [|split; [|split]].
      * rewrite Hw. subst w1. rewrite set_trace_twice, set_trace_trace, <- app_assoc.
        reflexivity.
      * intros pre c post H. destruct pre as [|c1 pre1]; simpl in H; injection H as <- H.
        -- split; [lia|]. intros o Ho. rewrite (Ho0 o Ho). change (sent []) with 0. lia.
        -- destruct (Hoff pre1 c post H) as [Hb Ho]. split; [exact Hb|].
           intros o Hc. rewrite (Ho o Hc), sent_cons. lia.
      * intros pre c post H Hf. destruct pre as [|c1 pre1]; simpl in H; injection H as <- H.
        -- rewrite app_nil_r, Hok in Hf. discriminate.
        -- apply (Hfail pre1 c post H). subst w1. rewrite set_trace_trace, <- app_assoc.
           exact Hf.
      * intros v Hv. rewrite (Hres v Hv), sent_cons. lia.
    + exists [c0]. split; [|split; [|split]].
      * reflexivity.
      * intros pre c post H. destruct pre as [|c1 [|c2 pre1]]; simpl in H; injection H as <- H.
        -- split; [lia|]. intros o Ho. rewrite (Ho0 o Ho). change (sent []) with 0. lia.
        -- discriminate.
        -- discriminate.
      * intros pre c post H Hf. destruct pre as [|c1 [|c2 pre1]]; simpl in H; injection H as <- H.
        -- split; [exact (eq_sym H)|]. eexists. reflexivity.
        -- discriminate.
        -- discriminate.
      * intros v Hv. discriminate.
Qed.

(** Against a server that accepts every call, once a session id is held
    each chunk is one append call. *)
Lemma upload_chunks_appends chunks : forall sid off w,
  (forall h c, ok (server h c) = true) ->
  str_truthy sid = true ->
  exists calls,
    upload_chunks server chunks sid off w =
      (Ok (sid, off + length (concat chunks)), set_trace w (trace w ++ calls)) /\
    count is_append calls = length chunks /\ count is_start calls = 0 /\
    count is_finish calls = 0 /\ count is_upload calls = 0.
Proof.
  induction chunks as [|ch rest IH]; intros sid off w Hok Hsid.
  - exists []. rewrite app_nil_r, set_trace_self. simpl.
    rewrite Nat.add_0_r. repeat split.
  - rewrite upload_chunks_step. cbv zeta. rewrite Hsid, Hok.
    destruct (IH sid (off + length ch) (set_trace w (trace w ++ [SessionAppend sid off ch])) Hok Hsid)
      as (calls & Heq & Ha & Hs & Hf & Hu).
    exists (SessionAppend sid off ch :: calls). rewrite Heq.
    rewrite set_trace_twice, set_trace_trace, <- app_assoc. simpl.
    rewrite length_app, Nat.add_assoc. unfold count in *; simpl. repeat split; auto.
Qed.

End Loop.

Lemma createReadStream_nonempty hwm content :
  (0 < hwm)%N -> Forall (fun ch => ch <> []) (createReadStream hwm content).
Proof. intros H. apply read_chunks_nonempty. exact H. Qed.

Lemma CHUNK_SIZE_pos : (0 < CHUNK_SIZE)%N.
Proof. unfold CHUNK_SIZE. lia. Qed.

Lemma count_zero (p : call -> bool) (l : list call) :
  (forall pre c post, l = pre ++ c :: post -> p c = false) -> count p l = 0.
Proof.
  induction l as [|x l IH]; intros H; [reflexivity|].
  unfold count; simpl. rewrite (H [] x l eq_refl).
  apply IH. intros pre c post E. apply (H (x :: pre) c post). rewrite E. reflexivity.
Qed.

Lemma is_token_body (c : call) : 0 < body_len c -> is_token c = false.
Proof. destruct c; simpl; try reflexivity; lia. Qed.

(** [uploadToDropbox] against any server: the calls it makes, their
    offsets and what happens after a failed call. *)
Lemma uploadToDropbox_with_spec server cs filePath fileName token w :
  (0 < cs)%N ->
  exists calls,
    snd (uploadToDropbox_with server cs filePath fileName token w) =
      set_trace w (trace w ++ calls) /\
    (forall pre c post, calls = pre ++ c :: post ->
       forall o, offset_of c = Some o -> o = sent pre /\ (post <> [] -> 0 < body_len c)) /\
    (forall pre c post, calls = pre ++ c :: post ->
       ok (server (trace w ++ pre) c) = false ->
       post = [] /\ exists e, fst (uploadToDropbox_with server cs filePath fileName token w) = Throw e) /\
    count is_token calls = 0.
Proof.
  intros Hcs. unfold uploadToDropbox_with.
  destruct (fs w filePath) as [content|].
  2:{ exists []. rewrite app_nil_r, set_trace_self. split; [reflexivity|split; [|split]];
      try reflexivity; intros pre c post H; destruct pre; discriminate. }
  set (dropboxPath := (uploadPath ++ "/" ++ fileName)%string).
  destruct (N.of_nat (length content) <=? cs)%N.
  - exists [FilesUpload dropboxPath content].
    unfold bind, fetch. cbn [fst snd].
    split; [|split; [|split]]; [| | |reflexivity].
    + destruct (ok _); reflexivity.
    + intros pre c post H o Ho. destruct pre as [|c1 [|c2 pre1]]; simpl in H;
        injection H as <- H; try discriminate.
    + intros pre c post H Hf. destruct pre as [|c1 [|c2 pre1]]; simpl in H;
        injection H as <- H; try discriminate.
      rewrite app_nil_r in Hf. rewrite Hf. split; [exact (eq_sym H)|eexists; reflexivity].
  - unfold bind, fetch.
    destruct (upload_chunks_spec server (createReadStream cs content) None 0 w
                (createReadStream_nonempty cs content Hcs))
      as (lc & Hw & Hoff & Hfail & Hres).
    destruct (upload_chunks server (createReadStream cs content) None 0 w) as [r w1].
    cbn [fst snd] in Hw, Hfail, Hres. subst w1.
    destruct r as [[sid off]|e].
    + specialize (Hres (sid, off) eq_refl). cbn [snd] in Hres.
      set (F := SessionFinish sid off dropboxPath).
      assert (Htok : count is_token lc = 0).
      { apply count_zero. intros pre c post H. apply is_token_body.
        exact (proj1 (Hoff pre c post H)). }
      exists (lc ++ [F]). cbn [fst snd]. rewrite set_trace_trace.
      split; [|split; [|split]]; [| | |rewrite count_app, Htok; reflexivity].
      * rewrite set_trace_twice, app_assoc. destruct (ok _); reflexivity.
      * intros pre c post H o Ho.
        destruct (app_cons_split _ _ _ _ _ H) as [[pre' [-> E]]|[post' [E ->]]].
        -- destruct pre' as [|? [|? ?]]; simpl in E; injection E as <- E; try discriminate.
           rewrite app_nil_r. simpl in Ho. injection Ho as <-.
           split; [lia|]. intros Hp. congruence.
        -- destruct (Hoff pre c post' E) as [Hb Hoc]. rewrite (Hoc o Ho).
           split; [lia|]. intros _. exact Hb.
      * intros pre c post H Hf.
        destruct (app_cons_split _ _ _ _ _ H) as [[pre' [-> E]]|[post' [E ->]]].
        -- destruct pre' as [|? [|? ?]]; simpl in E; injection E as <- E; try discriminate.
           rewrite app_nil_r in Hf. unfold F in Hf. rewrite Hf.
           split; [exact (eq_sym E)|eexists; reflexivity].
        -- destruct (Hfail pre c post' E Hf) as [_ [e' He']]. discriminate He'.
    + assert (Htok : count is_token lc = 0).
      { apply count_zero. intros pre c post H. apply is_token_body.
        exact (proj1 (Hoff pre c post H)). }
      exists lc. split; [reflexivity|split; [|split; [|exact Htok]]].
      * intros pre c post H o Ho. destruct (Hoff pre c post H) as [Hb Hoc].
        split; [rewrite (Hoc o Ho); lia|intros _; exact Hb].
      * intros pre c post H Hf. destruct (Hfail pre c post H Hf) as [Hp _].
        split; [exact Hp|eexists; reflexivity].
Qed.

Lemma strict_from_sent (calls : list call) :
  (forall pre c post, calls = pre ++ c :: post ->
     forall o, offset_of c = Some o -> o = sent pre /\ (post <> [] -> 0 < body_len c)) ->
  forall p1 c1 p2 c2 p3 o1 o2, calls = p1 ++ c1 :: p2 ++ c2 :: p3 ->
    offset_of c1 = Some o1 -> offset_of c2 = Some o2 -> o1 < o2.
Proof.
  intros Hoff p1 c1 p2 c2 p3 o1 o2 H H1 H2.
  destruct (Hoff p1 c1 (p2 ++ c2 :: p3) H o1 H1) as [E1 Hb].
  assert (H' : calls = (p1 ++ c1 :: p2) ++ c2 :: p3) by (rewrite <- app_assoc; exact H).
  destruct (Hoff _ _ _ H' o2 H2) as [E2 _].
  rewrite sent_app, sent_cons in E2.
  assert (0 < body_len c1) by (apply Hb; destruct p2; discriminate).
  lia.
Qed.

(** ** C2: offsets are the bytes sent so far *)

(** C2.  Whatever the server answers, the offset argument of every
    append and finish call that [uploadToDropbox] sends equals the number
    of bytes carried by the calls sent before it in this transfer (the
    start chunk and the earlier appended chunks); hence the offsets it
    sends are strictly increasing. *)
Theorem uploadToDropbox_offsets_bytes_sent server filePath fileName token w :
  exists calls,
    trace (snd (uploadToDropbox server filePath fileName token w)) = trace w ++ calls /\
    (forall pre c post o, calls = pre ++ c :: post ->
       offset_of c = Some o -> o = sent pre) /\
    (forall p1 c1 p2 c2 p3 o1 o2, calls = p1 ++ c1 :: p2 ++ c2 :: p3 ->
       offset_of c1 = Some o1 -> offset_of c2 = Some o2 -> o1 < o2).
Proof.
  destruct (uploadToDropbox_with_spec server CHUNK_SIZE filePath fileName token w
              CHUNK_SIZE_pos) as (calls & Hw & Hoff & _ & _).
  exists calls. unfold uploadToDropbox. rewrite Hw. split; [reflexivity|split].
  - intros pre c post o H Ho. exact (proj1 (Hoff pre c post H o Ho)).
  - apply strict_from_sent. exact Hoff.
Qed.

(** ** C6: a failed call ends the transfer *)

(** C6.  Whatever the server answers, when one of the calls of an upload
    (single-shot, start, append or finish) gets a non-success status, it
    is the last call [uploadToDropbox] makes (nothing is sent after it, in
    particular no retry) and the upload fails. *)
Theorem uploadToDropbox_failure_aborts server filePath fileName token w :
  exists calls,
    trace (snd (uploadToDropbox server filePath fileName token w)) = trace w ++ calls /\
    (forall pre c post, calls = pre ++ c :: post ->
       ok (server (trace w ++ pre) c) = false ->
       post = [] /\
       exists e, fst (uploadToDropbox server filePath fileName token w) = Throw e).
Proof.
  destruct (uploadToDropbox_with_spec server CHUNK_SIZE filePath fileName token w
              CHUNK_SIZE_pos) as (calls & Hw & _ & Hfail & _).
  exists calls. unfold uploadToDropbox. rewrite Hw. split; [reflexivity|exact Hfail].
Qed.

(** ** C1: which calls a complete transfer makes *)

Lemma createReadStream_concat hwm content :
  (0 < hwm)%N -> concat (createReadStream hwm content) = content.
Proof. intros H. apply read_chunks_concat; [exact H|lia]. Qed.

Lemma createReadStream_length hwm content :
  (0 < hwm)%N ->
  length (createReadStream hwm content) =
  (length content + N.to_nat hwm - 1) / N.to_nat hwm.
Proof. intros H. apply read_chunks_length; [exact H|lia]. Qed.

(** C1.  Against a server that accepts every call and answers each
    session start with a session id, [uploadToDropbox] on a file of size
    [S] with [C = CHUNK_SIZE] (100 MiB): if [S <= C] it makes exactly one
    call, a single-shot upload carrying the whole file; if [S > C] it makes
    no single-shot upload, exactly one start call, [ceil(S/C) - 1] append
    calls and one finish call, last, whose offset is [S]. *)
Theorem uploadToDropbox_call_counts server filePath fileName token w content :
  fs w filePath = Some content ->
  (forall h c, ok (server h c) = true) ->
  (forall h b, str_truthy (session_id (server h (SessionStart b))) = true) ->
  exists calls,
    trace (snd (uploadToDropbox server filePath fileName token w)) = trace w ++ calls /\
    (length content <= N.to_nat CHUNK_SIZE ->
       calls = [FilesUpload (uploadPath ++ "/" ++ fileName) content]) /\
    (N.to_nat CHUNK_SIZE < length content ->
       count is_upload calls = 0 /\ count is_start calls = 1 /\
       count is_append calls =
         (length content + N.to_nat CHUNK_SIZE - 1) / N.to_nat CHUNK_SIZE - 1 /\
       count is_finish calls = 1 /\
       exists pre sid,
         calls = pre ++ [SessionFinish sid (length content) (uploadPath ++ "/" ++ fileName)]).
Proof.
  intros Hfs Hok Hsid. unfold uploadToDropbox, uploadToDropbox_with. rewrite Hfs.
  set (dropboxPath := (uploadPath ++ "/" ++ fileName)%string).
  destruct (N.of_nat (length content) <=? CHUNK_SIZE)%N eqn:Hle.
  - apply N.leb_le in Hle.
    exists [FilesUpload dropboxPath content]. unfold bind, fetch. cbn [fst snd].
    rewrite Hok. split; [reflexivity|split; [reflexivity|intros Hlt; lia]].
  - apply N.leb_gt in Hle.
    pose proof (createReadStream_concat CHUNK_SIZE content CHUNK_SIZE_pos) as Hcat.
    pose proof (createReadStream_length CHUNK_SIZE content CHUNK_SIZE_pos) as Hlen.
    unfold bind, fetch.
    destruct (createReadStream CHUNK_SIZE content) as [|ch1 rest] eqn:Hcr.
    { simpl in Hcat. subst content. simpl in Hle. lia. }
    rewrite upload_chunks_step. cbv zeta. cbn [str_truthy]. rewrite Hok.
    set (w1 := set_trace w (trace w ++ [SessionStart ch1])).
    set (sid := session_id (server (trace w) (SessionStart ch1))).
    destruct (upload_chunks_appends server rest sid (0 + length ch1) w1 Hok (Hsid _ _))
      as (calls & Heq & Ha & Hs & Hf & Hu).
    rewrite Heq. cbn [fst snd]. rewrite Hok. cbn [fst snd ret].
    assert (Hoff : 0 + length ch1 + length (concat rest) = length content).
    { rewrite <- Hcat. simpl. rewrite length_app. lia. }
    rewrite Hoff.
    exists (SessionStart ch1 :: calls ++ [SessionFinish sid (length content) dropboxPath]).
    split.
    + subst w1. rewrite !set_trace_trace, <- !app_assoc. reflexivity.
    + split; [intros Hle'; lia|intros _].
      change (SessionStart ch1 :: calls ++ [SessionFinish sid (length content) dropboxPath])
        with ([SessionStart ch1] ++ calls ++ [SessionFinish sid (length content) dropboxPath]).
      rewrite !count_app, Ha, Hs, Hf, Hu, <- Hlen.
      split; [reflexivity|split; [reflexivity|split; [|split; [reflexivity|]]]].
      * cbn [count filter is_append length]. lia.
      * exists (SessionStart ch1 :: calls), sid. reflexivity.
Qed.

(** ** Token cache *)

Lemma refresh_exchange_eq server now w :
  refresh_exchange server now w =
  let data := server (trace w) TokenRefresh in
  let w1 := set_trace w (trace w ++ [TokenRefresh]) in
  match access_token data with
  | Some t =>
      if negb (String.eqb t "") then
        (Ok t, set_token w1 (Some t) (Some (now + expires_in data * 1000)%Z))
      else (Throw "Impossible d'obtenir le token"%string, w1)
  | None => (Throw "Impossible d'obtenir le token"%string, w1)
  end.
Proof.
  unfold refresh_exchange, bind, fetch. cbn [fst snd].
  destruct (access_token _) as [t|]; [|reflexivity].
  destruct (negb _); reflexivity.
Qed.

Lemma refreshAccessToken_invalid server now w :
  ~ cache_valid w now -> refreshAccessToken server now w = refresh_exchange server now w.
Proof.
  intros Hv. unfold refreshAccessToken.
  destruct (accessToken w) as [t|] eqn:Ht; [|reflexivity].
  destruct (tokenExpiry w) as [e|] eqn:He; [|reflexivity].
  destruct (str_truthy (Some t) && num_truthy (Some e) && (now <? e)%Z) eqn:Hc;
    [|reflexivity].
  exfalso. apply Hv. exists t, e.
  apply andb_prop in Hc as [Hc Hlt]. apply andb_prop in Hc as [Ht' _].
  cbn [str_truthy] in Ht'. apply negb_true_iff, String.eqb_neq in Ht'.
  apply Z.ltb_lt in Hlt. auto.
Qed.

Lemma refreshAccessToken_valid server now w t e :
  (0 <= now)%Z -> accessToken w = Some t -> t <> ""%string ->
  tokenExpiry w = Some e -> (now < e)%Z ->
  refreshAccessToken server now w = (Ok t, w).
Proof.
  intros Hnow Ht Hne He Hlt. unfold refreshAccessToken. rewrite Ht, He.
  cbn [str_truthy num_truthy].
  rewrite (proj2 (String.eqb_neq t "") Hne).
  replace (e =? 0)%Z with false by (symmetry; apply Z.eqb_neq; lia).
  replace (now <? e)%Z with true by (symmetry; apply Z.ltb_lt; lia).
  reflexivity.
Qed.

Lemma refreshAccessToken_refresh server now w :
  ~ cache_valid w now ->
  trace (snd (refreshAccessToken server now w)) = trace w ++ [TokenRefresh] /\
  fs (snd (refreshAccessToken server now w)) = fs w /\
  (forall t, access_token (server (trace w) TokenRefresh) = Some t -> t <> ""%string ->
     fst (refreshAccessToken server now w) = Ok t /\
     accessToken (snd (refreshAccessToken server now w)) = Some t /\
     tokenExpiry (snd (refreshAccessToken server now w)) =
       Some (now + expires_in (server (trace w) TokenRefresh) * 1000)%Z).
Proof.
  intros Hv. rewrite refreshAccessToken_invalid by exact Hv.
  rewrite refresh_exchange_eq. cbv zeta.
  destruct (access_token (server (trace w) TokenRefresh)) as [t|] eqn:Hat.
  - destruct (negb (String.eqb t "")) eqn:Hne.
    + split; [reflexivity|split; [reflexivity|]].
      intros t' Ht' _. injection Ht' as <-. auto.
    + split; [reflexivity|split; [reflexivity|]].
      intros t' Ht' Hne'. injection Ht' as <-.
      apply negb_false_iff, String.eqb_eq in Hne. contradiction.
  - split; [reflexivity|split; [reflexivity|]]. intros t' Ht'. discriminate.
Qed.

(** C4.  [refreshAccessToken] at time [now] (in ms): when a token is
    cached and [now] is before its expiry, it returns that token and
    changes nothing (no call is made); otherwise it makes exactly one call
    to the token endpoint, leaves the disk alone, and when the response
    carries a token it returns it and the cache becomes that token with
    expiry [now + expires_in * 1000] (the lifetime, in seconds, counted
    in ms). *)
Theorem refreshAccessToken_cache server now w :
  (0 <= now)%Z ->
  (forall t e, accessToken w = Some t -> t <> ""%string -> tokenExpiry w = Some e ->
     (now < e)%Z -> refreshAccessToken server now w = (Ok t, w)) /\
  (~ cache_valid w now ->
     trace (snd (refreshAccessToken server now w)) = trace w ++ [TokenRefresh] /\
     fs (snd (refreshAccessToken server now w)) = fs w /\
     (forall t, access_token (server (trace w) TokenRefresh) = Some t -> t <> ""%string ->
        fst (refreshAccessToken server now w) = Ok t /\
        accessToken (snd (refreshAccessToken server now w)) = Some t /\
        tokenExpiry (snd (refreshAccessToken server now w)) =
          Some (now + expires_in (server (trace w) TokenRefresh) * 1000)%Z)).
Proof.
  intros Hnow. split.
  - intros t e Ht Hne He Hlt. apply refreshAccessToken_valid with e; assumption.
  - apply refreshAccessToken_refresh.
Qed.

(** ** The route *)

Lemma unlink_staged_keeps files : forall w,
  trace (unlink_staged files w) = trace w /\
  accessToken (unlink_staged files w) = accessToken w /\
  tokenExpiry (unlink_staged files w) = tokenExpiry w.
Proof.
  induction files as [|f r IH]; intros w; [auto|].
  simpl. destruct (IH (if existsSync w (path f) then fs_unlink w (path f) else w))
    as (H1 & H2 & H3).
  rewrite H1, H2, H3. destruct (existsSync w (path f)); auto.
Qed.

(** After the token step, the route touches neither the token cache nor
    the token endpoint. *)
Lemma relay_after_token server archive_zip files formData now date w :
  files <> [] ->
  exists calls,
    trace (snd (relay server archive_zip files formData now date w)) =
      trace (snd (refreshAccessToken server now w)) ++ calls /\
    count is_token calls = 0 /\
    accessToken (snd (relay server archive_zip files formData now date w)) =
      accessToken (snd (refreshAccessToken server now w)) /\
    tokenExpiry (snd (relay server archive_zip files formData now date w)) =
      tokenExpiry (snd (refreshAccessToken server now w)).
Proof.
  intros Hf. unfold relay. destruct files as [|f0 fr]; [congruence|].
  destruct (refreshAccessToken server now w) as [[token|e] w1]; cbn [fst snd].
  2:{ exists []. rewrite app_nil_r. auto. }
  destruct (archive_zip _ _) as [zip|]; cbn [fst snd].
  2:{ exists []. rewrite app_nil_r. auto. }
  set (w2 := fs_write w1 (archivePath date formData) zip).
  destruct (uploadToDropbox_with_spec server CHUNK_SIZE (archivePath date formData)
              (archiveName date formData) token w2 CHUNK_SIZE_pos)
    as (calls & Hw & _ & _ & Htok).
  unfold uploadToDropbox.
  destruct (uploadToDropbox_with server CHUNK_SIZE (archivePath date formData)
              (archiveName date formData) token w2) as [[v|e] w3].
  - cbn [snd] in Hw. subst w3. cbn [fst snd].
    set (w4 := unlink_staged (f0 :: fr) (set_trace w2 (trace w2 ++ calls))).
    destruct (unlink_staged_keeps (f0 :: fr) (set_trace w2 (trace w2 ++ calls)))
      as (H1 & H2 & H3). fold w4 in H1, H2, H3.
    exists calls. destruct (existsSync w4 (archivePath date formData)); auto.
  - cbn [snd] in Hw. subst w3. cbn [fst snd]. exists calls. auto.
Qed.

(** C5.  When the cache cannot serve [now] and the token endpoint answers
    without a usable [access_token], [refreshAccessToken] fails with
    ["Impossible d'obtenir le token"] after exactly that one call, with
    [accessToken] and [tokenExpiry] as they were; and the route, for any
    non-empty file set, answers 500 with that message at that point: the
    disk is untouched (no archive is written) and the archiver is never
    consulted (the result is the same for every [archive_zip]). *)
Theorem refresh_failure_keeps_cache server now w :
  ~ cache_valid w now ->
  str_truthy (access_token (server (trace w) TokenRefresh)) = false ->
  refreshAccessToken server now w =
    (Throw "Impossible d'obtenir le token"%string, set_trace w (trace w ++ [TokenRefresh])) /\
  accessToken (set_trace w (trace w ++ [TokenRefresh])) = accessToken w /\
  tokenExpiry (set_trace w (trace w ++ [TokenRefresh])) = tokenExpiry w /\
  fs (set_trace w (trace w ++ [TokenRefresh])) = fs w /\
  (forall archive_zip files formData date, files <> [] ->
     relay server archive_zip files formData now date w =
       (Responded 500 (RFail "Impossible d'obtenir le token"),
        set_trace w (trace w ++ [TokenRefresh]))).
Proof.
  intros Hv Hat.
  assert (Hr : refreshAccessToken server now w =
    (Throw "Impossible d'obtenir le token"%string, set_trace w (trace w ++ [TokenRefresh]))).
  { rewrite refreshAccessToken_invalid by exact Hv. rewrite refresh_exchange_eq. cbv zeta.
    destruct (access_token (server (trace w) TokenRefresh)) as [t|]; [|reflexivity].
    cbn [str_truthy] in Hat. rewrite Hat. reflexivity. }
  split; [exact Hr|split; [reflexivity|split; [reflexivity|split; [reflexivity|]]]].
  intros archive_zip files formData date Hf. unfold relay.
  destruct files as [|f0 fr]; [congruence|]. rewrite Hr. reflexivity.
Qed.

(** C7.  With no file, the route answers 400
    [{success:false, message:"Aucun fichier uploadé"}] and the process state
    is unchanged: no token refresh, no archive, no remote call. *)
Theorem relay_no_input server archive_zip formData now date w :
  relay server archive_zip [] formData now date w =
    (Responded 400 (RFail "Aucun fichier uploadé"), w).
Proof. reflexivity. Qed.

(** C9.  Two consecutive requests, each with at least one file: the first
    one, at time [t1], finds no usable cached token and the token endpoint
    grants [tok]; it does not crash the process (a crash would lose the
    in-memory cache); the second one starts at [t2] before the expiry of
    [tok].  Together they make exactly one call to the token endpoint. *)
Theorem relay_token_reuse server archive_zip files1 form1 t1 d1 files2 form2 t2 d2 w tok :
  files1 <> [] ->
  ~ cache_valid w t1 ->
  access_token (server (trace w) TokenRefresh) = Some tok -> tok <> ""%string ->
  (forall e, fst (relay server archive_zip files1 form1 t1 d1 w) <> Crashed e) ->
  (0 <= t2)%Z ->
  (t2 < t1 + expires_in (server (trace w) TokenRefresh) * 1000)%Z ->
  count is_token
    (trace (snd (relay server archive_zip files2 form2 t2 d2
                   (snd (relay server archive_zip files1 form1 t1 d1 w))))) =
  count is_token (trace w) + 1.
Proof.
  intros Hf1 Hv Hat Hne _ Ht2 Hexp.
  destruct (relay_after_token server archive_zip files1 form1 t1 d1 w Hf1)
    as (calls1 & Htr1 & Hc1 & Ha1 & He1).
  destruct (refreshAccessToken_refresh server t1 w Hv) as (Htr & _ & Hok).
  destruct (Hok tok Hat Hne) as (_ & Ha & He).
  set (wA := snd (relay server archive_zip files1 form1 t1 d1 w)) in *.
  assert (HtrA : trace wA = trace w ++ [TokenRefresh] ++ calls1)
    by (rewrite Htr1, Htr, <- app_assoc; reflexivity).
  destruct files2 as [|f2 fr2].
  - cbn [relay snd]. rewrite HtrA, !count_app, Hc1. cbn. lia.
  - destruct (relay_after_token server archive_zip (f2 :: fr2) form2 t2 d2 wA
                ltac:(discriminate)) as (calls2 & Htr2 & Hc2 & _ & _).
    rewrite Htr2.
    rewrite (refreshAccessToken_valid server t2 wA tok
               (t1 + expires_in (server (trace w) TokenRefresh) * 1000)%Z
               Ht2 ltac:(rewrite Ha1; exact Ha) Hne ltac:(rewrite He1; exact He) Hexp).
    cbn [snd]. rewrite HtrA, !count_app, Hc1, Hc2. cbn. lia.
Qed.

(** ** Archive name *)

(** Strings with neither ["T"] nor ["-"]. *)
Fixpoint plain (s : string) : bool :=
  match s with
  | EmptyString => true
  | String c r => negb (Ascii.eqb c "T"%char) && negb (Ascii.eqb c "-"%char) && plain r
  end.

Lemma plain_app s1 s2 : plain (s1 ++ s2)%string = plain s1 && plain s2.
Proof.
  induction s1 as [|c r IH]; [reflexivity|]. simpl. rewrite IH. apply andb_assoc.
Qed.

Lemma plain_zeros k : plain (zeros k) = true.
Proof. induction k; [reflexivity|exact IHk]. Qed.

Lemma plain_digit k : k < 10 ->
  negb (Ascii.eqb (ascii_of_nat (48 + k)) "T"%char) &&
  negb (Ascii.eqb (ascii_of_nat (48 + k)) "-"%char) = true.
Proof.
  intros Hk. do 10 (destruct k as [|k]; [reflexivity|]). lia.
Qed.

Lemma plain_dec_aux fuel : forall n acc, plain acc = true -> plain (dec_aux fuel n acc) = true.
Proof.
  induction fuel as [|fuel IH]; intros n acc Hacc; [exact Hacc|].
  cbn [dec_aux].
  assert (Hd : plain (String (ascii_of_nat (48 + Nat.modulo n 10)) acc) = true).
  { cbn [plain]. rewrite plain_digit by (apply Nat.mod_upper_bound; lia). exact Hacc. }
  destruct (Nat.ltb n 10); [exact Hd|apply IH; exact Hd].
Qed.

Lemma plain_pad k n : plain (pad k n) = true.
Proof.
  unfold pad, dec. rewrite plain_app, plain_zeros. apply plain_dec_aux. reflexivity.
Qed.

Lemma split_T_0_plain s r : plain s = true -> split_T_0 (s ++ r)%string = (s ++ split_T_0 r)%string.
Proof.
  induction s as [|c s IH]; intros H; [reflexivity|].
  cbn [plain] in H. apply andb_prop in H as [H Hs]. apply andb_prop in H as [HT _].
  apply negb_true_iff in HT. simpl. rewrite HT, IH by exact Hs. reflexivity.
Qed.

Lemma remove_dashes_plain s r :
  plain s = true -> remove_dashes (s ++ r)%string = (s ++ remove_dashes r)%string.
Proof.
  induction s as [|c s IH]; intros H; [reflexivity|].
  cbn [plain] in H. apply andb_prop in H as [H Hs]. apply andb_prop in H as [_ HD].
  apply negb_true_iff in HD. simpl. rewrite HD, IH by exact Hs. reflexivity.
Qed.

Lemma append_empty_r s : (s ++ "")%string = s.
Proof. induction s as [|c s IH]; [reflexivity|simpl; rewrite IH; reflexivity]. Qed.

(** The date part of the name is [YYYYMMDD] of the UTC date. *)
Lemma dateStr_digits d :
  dateStr d = (pad 4 (year d) ++ pad 2 (month d) ++ pad 2 (day d))%string.
Proof.
  unfold dateStr, toISOString.
  pose proof (plain_pad 4 (year d)) as HY. pose proof (plain_pad 2 (month d)) as HM.
  pose proof (plain_pad 2 (day d)) as HD.
  remember (pad 4 (year d)) as Y. remember (pad 2 (month d)) as Mo.
  remember (pad 2 (day d)) as Da.
  remember (pad 2 (hours d) ++ ":" ++ pad 2 (minutes d) ++ ":" ++ pad 2 (seconds d) ++
            "." ++ pad 3 (millis d) ++ "Z")%string as rest.
  rewrite split_T_0_plain by exact HY. simpl.
  rewrite split_T_0_plain by exact HM. simpl.
  rewrite split_T_0_plain by exact HD. simpl.
  rewrite remove_dashes_plain by exact HY. simpl.
  rewrite remove_dashes_plain by exact HM. simpl.
  rewrite remove_dashes_plain by exact HD. simpl.
  rewrite append_empty_r. reflexivity.
Qed.

Open Scope string_scope.

Lemma string_app_assoc s1 s2 s3 :
  ((s1 ++ s2) ++ s3)%string = (s1 ++ s2 ++ s3)%string.
Proof. induction s1 as [|c s IH]; [reflexivity|simpl; rewrite IH; reflexivity]. Qed.

(** C8 (counterexample).  The name changes with each of [field1],
    [field2] and [field5] alone, so no two form fields determine it. *)
Lemma archiveName_depends_on_three_fields :
  archiveName sample_date (only_field "field1" "Dupont") <> archiveName sample_date no_fields /\
  archiveName sample_date (only_field "field2" "Marie") <> archiveName sample_date no_fields /\
  archiveName sample_date (only_field "field5" "Intro") <> archiveName sample_date no_fields /\
  ~ (exists k1 k2, forall d (f g : form),
       f k1 = g k1 -> f k2 = g k2 -> archiveName d f = archiveName d g).
Proof.
  split; [vm_compute; discriminate|].
  split; [vm_compute; discriminate|].
  split; [vm_compute; discriminate|].
  intros (k1 & k2 & H).
  assert (Hx : forall kx, k1 <> kx -> k2 <> kx ->
            archiveName sample_date no_fields = archiveName sample_date (only_field kx "x")).
  { intros kx H1 H2. apply H; unfold no_fields, only_field.
    - rewrite (proj2 (String.eqb_neq _ _) H1). reflexivity.
    - rewrite (proj2 (String.eqb_neq _ _) H2). reflexivity. }
  destruct (string_dec k1 "field1"), (string_dec k2 "field1"),
           (string_dec k1 "field2"), (string_dec k2 "field2"); subst;
    first
      [ pose proof (Hx "field1" ltac:(congruence) ltac:(congruence)) as C
      | pose proof (Hx "field2" ltac:(congruence) ltac:(congruence)) as C
      | pose proof (Hx "field5" ltac:(congruence) ltac:(congruence)) as C ];
    vm_compute in C; discriminate C.
Qed.

(** C8 (amended).  The name is [YYYYMMDD] of the UTC date, then [field1],
    [field2] and [field5] (["inconnu"], ["inconnu"], ["projet"] when absent
    or empty), joined by ["_"], with the suffix [".zip"]; forms agreeing
    on those three fields give the same name. *)
Theorem archiveName_three_fields d (f : form) :
  archiveName d f =
    (pad 4 (year d) ++ pad 2 (month d) ++ pad 2 (day d) ++ "_" ++
     or_default (f "field1") "inconnu" ++ "_" ++
     or_default (f "field2") "inconnu" ++ "_" ++
     or_default (f "field5") "projet" ++ ".zip")%string /\
  (forall g : form, f "field1" = g "field1" -> f "field2" = g "field2" ->
     f "field5" = g "field5" -> archiveName d f = archiveName d g).
Proof.
  split.
  - unfold archiveName. rewrite dateStr_digits, !string_app_assoc. reflexivity.
  - intros g H1 H2 H5. unfold archiveName. rewrite H1, H2, H5. reflexivity.
Qed.

(** ** Cleanup and outcomes on failing requests *)

(** C3 (code bug).  When Dropbox refuses the upload, the route answers
    500 but the staged input and the archive are still on disk: the
    cleanup sits after [await uploadToDropbox(...)] inside the [try]. *)
Theorem relay_failure_leaves_staged_files :
  fst (relay storage_full_server zip_ok [staged_file] no_fields 1000 sample_date staged_world)
    = Responded 500 (RFail "Erreur Dropbox: Insufficient Storage") /\
  existsSync (snd (relay storage_full_server zip_ok [staged_file] no_fields 1000
                     sample_date staged_world)) "./uploads/1_stem.wav" = true /\
  existsSync (snd (relay storage_full_server zip_ok [staged_file] no_fields 1000
                     sample_date staged_world)) (archivePath sample_date no_fields) = true.
Proof. vm_compute. split; [reflexivity|split; reflexivity]. Qed.

(** C10 (code bug).  When the archiver emits ["error"], the listener
    rethrows outside the route's [try]: no 500 answer is produced. *)
Theorem relay_archive_error_no_response :
  fst (relay accepting_server zip_error [staged_file] no_fields 1000 sample_date staged_world)
    = Crashed "archiver error".
Proof. vm_compute. reflexivity. Qed.

(** ** Witnesses: the hypotheses of the theorems hold on concrete inputs *)

Lemma uploadToDropbox_call_counts_witness :
  fs staged_world "./uploads/1_stem.wav" = Some [Byte.x01; Byte.x02; Byte.x03] /\
  (forall h c, ok (accepting_server h c) = true) /\
  (forall h b, str_truthy (session_id (accepting_server h (SessionStart b))) = true) /\
  exists calls,
    trace (snd (uploadToDropbox accepting_server "./uploads/1_stem.wav" "stem.zip"
                  "sl.token" staged_world)) = (trace staged_world ++ calls)%list /\
    ((length [Byte.x01; Byte.x02; Byte.x03] <= N.to_nat CHUNK_SIZE)%nat ->
       calls = [FilesUpload (uploadPath ++ "/" ++ "stem.zip") [Byte.x01; Byte.x02; Byte.x03]]).
Proof.
  split; [reflexivity|]. split; [intros; reflexivity|]. split; [intros; reflexivity|].
  destruct (uploadToDropbox_call_counts accepting_server "./uploads/1_stem.wav" "stem.zip"
              "sl.token" staged_world [Byte.x01; Byte.x02; Byte.x03]
              eq_refl (fun _ _ => eq_refl) (fun _ _ => eq_refl)) as (calls & Ht & Hs & _).
  exists calls. split; [exact Ht|exact Hs].
Defined.

Lemma refreshAccessToken_cache_witness :
  (0 <= 1000)%Z /\
  trace (snd (refreshAccessToken accepting_server 1000 staged_world)) = [TokenRefresh].
Proof.
  split; [lia|].
  destruct (refreshAccessToken_cache accepting_server 1000 staged_world ltac:(lia)) as [_ H2].
  destruct (H2 ltac:(intros (t & e & Ht & _); discriminate)) as [Htr _].
  exact Htr.
Defined.

Lemma refresh_failure_keeps_cache_witness :
  ~ cache_valid staged_world 1000 /\
  str_truthy (access_token (tokenless_server (trace staged_world) TokenRefresh)) = false /\
  relay tokenless_server zip_ok [staged_file] no_fields 1000 sample_date staged_world =
    (Responded 500 (RFail "Impossible d'obtenir le token"),
     set_trace staged_world (trace staged_world ++ [TokenRefresh])%list).
Proof.
  assert (Hv : ~ cache_valid staged_world 1000) by (intros (t & e & Ht & _); discriminate).
  split; [exact Hv|]. split; [reflexivity|].
  destruct (refresh_failure_keeps_cache tokenless_server 1000 staged_world Hv eq_refl)
    as (_ & _ & _ & _ & Hrel).
  apply Hrel. discriminate.
Defined.

Lemma relay_token_reuse_witness :
  [staged_file] <> [] /\
  ~ cache_valid staged_world 1000 /\
  access_token (accepting_server (trace staged_world) TokenRefresh) = Some "sl.token" /\
  "sl.token" <> "" /\
  (forall e, fst (relay accepting_server zip_ok [staged_file] no_fields 1000 sample_date
                    staged_world) <> Crashed e) /\
  (0 <= 5000)%Z /\
  (5000 < 1000 + expires_in (accepting_server (trace staged_world) TokenRefresh) * 1000)%Z /\
  count is_token
    (trace (snd (relay accepting_server zip_ok [staged_file] no_fields 5000 sample_date
                   (snd (relay accepting_server zip_ok [staged_file] no_fields 1000
                           sample_date staged_world))))) =
  (count is_token (trace staged_world) + 1)%nat.
Proof.
  assert (H1 : [staged_file] <> []) by discriminate.
  assert (H2 : ~ cache_valid staged_world 1000) by (intros (t & e & Ht & _); discriminate).
  assert (H3 : access_token (accepting_server (trace staged_world) TokenRefresh)
               = Some "sl.token") by reflexivity.
  assert (H4 : "sl.token" <> "") by discriminate.
  assert (H5 : forall e, fst (relay accepting_server zip_ok [staged_file] no_fields 1000
                               sample_date staged_world) <> Crashed e)
    by (intros e; vm_compute; discriminate).
  assert (H6 : (0 <= 5000)%Z) by lia.
  assert (H7 : (5000 < 1000 + expires_in (accepting_server (trace staged_world) TokenRefresh)
                             * 1000)%Z) by (vm_compute; reflexivity).
  repeat (split; [assumption|]).
  exact (relay_token_reuse accepting_server zip_ok [staged_file] no_fields 1000 sample_date
           [staged_file] no_fields 5000 sample_date staged_world "sl.token"
           H1 H2 H3 H4 H5 H6 H7).
Defined.

Close Scope string_scope.

(** * Further properties of the code *)

(** ** Helpers *)

Lemma body_len_call_body c : body_len c = length (call_body c).
Proof. destruct c; reflexivity. Qed.

(** Every chunk of the read stream has at most [highWaterMark] bytes, and
    exactly that many unless it is the last one. *)
Lemma read_chunks_sizes fuel hwm : forall l pre ch post,
  read_chunks fuel hwm l = pre ++ ch :: post ->
  length ch <= N.to_nat hwm /\ (post <> [] -> length ch = N.to_nat hwm).
Proof.
  induction fuel as [|fuel IH]; intros l pre ch post H.
  - destruct pre; discriminate.
  - destruct l as [|x r].
    + destruct pre; discriminate.
    + rewrite read_chunks_cons in H by discriminate.
      destruct pre as [|c1 pre1]; simpl in H; injection H as <- H.
      * rewrite length_firstn. split; [lia|]. intros Hp.
        assert (Hs : skipn (N.to_nat hwm) (x :: r) <> []).
        { intros E. rewrite E, read_chunks_nil in H. subst post. congruence. }
        assert (N.to_nat hwm < length (x :: r)).
        { destruct (Nat.lt_ge_cases (N.to_nat hwm) (length (x :: r))) as [|Hge];
            [assumption|].
          exfalso. apply Hs. apply skipn_all2. exact Hge. }
        lia.
      * exact (IH _ pre1 ch post H).
Qed.

(** The loop sends the chunks in order, one per call, each as a start or
    an append; on success it has sent all of them. *)
Lemma upload_chunks_bodies server chunks : forall sid off w,
  exists calls,
    snd (upload_chunks server chunks sid off w) = set_trace w (trace w ++ calls) /\
    map call_body calls = firstn (length calls) chunks /\
    (forall c, In c calls -> is_start c || is_append c = true) /\
    (forall v, fst (upload_chunks server chunks sid off w) = Ok v ->
       length calls = length chunks).
Proof.
  induction chunks as [|ch rest IH]; intros sid off w.
  - exists []. rewrite app_nil_r, set_trace_self.
    split; [reflexivity|split; [reflexivity|split; [intros c []|intros; reflexivity]]].
  - rewrite upload_chunks_step. cbv zeta.
    set (c0 := if str_truthy sid then SessionAppend sid off ch else SessionStart ch).
    assert (Hb : call_body c0 = ch) by (subst c0; destruct (str_truthy sid); reflexivity).
    assert (Hk : is_start c0 || is_append c0 = true)
      by (subst c0; destruct (str_truthy sid); reflexivity).
    destruct (ok (server (trace w) c0)).
    + destruct (IH (if str_truthy sid then sid else session_id (server (trace w) c0))
                   (off + length ch) (set_trace w (trace w ++ [c0])))
        as (calls & Hw & Hm & Hk' & Hl).
      exists (c0 :: calls). split; [|split; [|split]].
      * rewrite Hw, set_trace_twice, set_trace_trace, <- app_assoc. reflexivity.
      * simpl. rewrite Hb, Hm. reflexivity.
      * intros c [<-|Hc]; [exact Hk|exact (Hk' c Hc)].
      * intros v Hv. simpl. rewrite (Hl v Hv). reflexivity.
    + exists [c0]. split; [|split; [|split]].
      * reflexivity.
      * simpl. rewrite Hb. reflexivity.
      * intros c [<-|[]]. exact Hk.
      * intros v Hv. discriminate.
Qed.

(** A successful [uploadToDropbox] sends the file's bytes exactly once and
    in order; its last call writes [uploadPath/fileName] and its result is
    the metadata of the answer to that call. *)
Lemma uploadToDropbox_with_content server cs filePath fileName token w content v :
  (0 < cs)%N ->
  fs w filePath = Some content ->
  fst (uploadToDropbox_with server cs filePath fileName token w) = Ok v ->
  exists calls last,
    trace (snd (uploadToDropbox_with server cs filePath fileName token w)) =
      trace w ++ calls ++ [last] /\
    concat (map call_body (calls ++ [last])) = content /\
    call_path last = Some (uploadPath ++ "/" ++ fileName)%string /\
    Forall (fun c => call_path c = None) calls /\
    v = metadata (server (trace w ++ calls) last).
Proof.
  intros Hcs Hfs Hv. unfold uploadToDropbox_with in *. rewrite Hfs in *.
  set (dropboxPath := (uploadPath ++ "/" ++ fileName)%string) in *.
  destruct (N.of_nat (length content) <=? cs)%N.
  - unfold bind, fetch in *. cbn [fst snd] in *.
    destruct (ok (server (trace w) (FilesUpload dropboxPath content))) eqn:Hok;
      [|discriminate Hv].
    cbn [ret fst] in Hv. injection Hv as <-.
    exists [], (FilesUpload dropboxPath content). cbn [snd ret].
    split; [|split; [|split; [|split]]].
    + reflexivity.
    + simpl. apply app_nil_r.
    + reflexivity.
    + constructor.
    + rewrite app_nil_r. reflexivity.
  - unfold bind, fetch in *.
    pose proof (createReadStream_concat cs content Hcs) as Hcat.
    destruct (upload_chunks_bodies server (createReadStream cs content) None 0 w)
      as (lc & Hw & Hm & Hk & Hl).
    destruct (upload_chunks server (createReadStream cs content) None 0 w) as [[st|e] w1];
      cbn [fst snd] in *; [|discriminate Hv].
    specialize (Hl st eq_refl). subst w1.
    rewrite set_trace_trace in *.
    destruct (ok (server (trace w ++ lc) (SessionFinish (fst st) (snd st) dropboxPath))) eqn:Hok;
      [|discriminate Hv].
    cbn [ret fst snd] in *. injection Hv as <-.
    exists lc, (SessionFinish (fst st) (snd st) dropboxPath).
    split; [|split; [|split; [|split]]].
    + rewrite app_assoc. reflexivity.
    + rewrite map_app, concat_app, Hm, Hl, firstn_all.
      change (concat (map call_body [SessionFinish (fst st) (snd st) dropboxPath]))
        with (@nil Byte.byte).
      rewrite app_nil_r. exact Hcat.
    + reflexivity.
    + apply Forall_forall. intros c Hc. specialize (Hk c Hc).
      destruct c; try discriminate; reflexivity.
    + reflexivity.
Qed.

Lemma bodies_sizes (K : nat) (lc : list call) (chunks : list bytes) :
  map call_body lc = firstn (length lc) chunks ->
  (forall pre ch post, chunks = pre ++ ch :: post ->
     length ch <= K /\ (post <> [] -> length ch = K)) ->
  forall pre c post, lc = pre ++ c :: post ->
    body_len c <= K /\ (post <> [] -> body_len c = K).
Proof.
  intros Hm Hch pre c post E.
  rewrite body_len_call_body.
  assert (Hc : chunks = map call_body pre ++ call_body c ::
                        (map call_body post ++ skipn (length lc) chunks)).
  { rewrite <- (firstn_skipn (length lc) chunks) at 1. rewrite <- Hm, E, map_app.
    simpl. rewrite <- app_assoc. reflexivity. }
  destruct (Hch _ _ _ Hc) as [H1 H2]. split; [exact H1|].
  intros Hp. apply H2. destruct post; [congruence|discriminate].
Qed.




Lemma token_inv_ext w w' :
  accessToken w' = accessToken w -> tokenExpiry w' = tokenExpiry w ->
  token_inv w -> token_inv w'.
Proof. intros H1 H2. unfold token_inv. rewrite H1, H2. exact (fun H => H). Qed.

Lemma refreshAccessToken_token_inv server now w :
  token_inv w -> token_inv (snd (refreshAccessToken server now w)).
Proof.
  intros Hi. unfold refreshAccessToken.
  assert (Hx : token_inv (snd (refresh_exchange server now w))).
  { rewrite refresh_exchange_eq. cbv zeta.
    destruct (access_token (server (trace w) TokenRefresh)) as [t|];
      [destruct (negb (String.eqb t "")) eqn:Ht|]; cbn [snd].
    - unfold token_inv. cbn [accessToken tokenExpiry set_token].
      split; [split; intros H; discriminate H|].
      intros t' E. injection E as <-.
      apply negb_true_iff, String.eqb_neq in Ht. exact Ht.
    - exact Hi.
    - exact Hi. }
  destruct (accessToken w), (tokenExpiry w); try exact Hx.
  destruct (_ && _ && _); [exact Hi|exact Hx].
Qed.

Lemma refreshAccessToken_fs server now w :
  fs (snd (refreshAccessToken server now w)) = fs w.
Proof.
  unfold refreshAccessToken.
  assert (Hx : fs (snd (refresh_exchange server now w)) = fs w).
  { rewrite refresh_exchange_eq. cbv zeta.
    destruct (access_token _) as [t|]; [destruct (negb _)|]; reflexivity. }
  destruct (accessToken w), (tokenExpiry w); try exact Hx.
  destruct (_ && _ && _); [reflexivity|exact Hx].
Qed.

Lemma refreshAccessToken_no_token server now w :
  ~ cache_valid w now ->
  str_truthy (access_token (server (trace w) TokenRefresh)) = false ->
  refreshAccessToken server now w =
    (Throw "Impossible d'obtenir le token"%string, set_trace w (trace w ++ [TokenRefresh])).
Proof.
  intros Hv Hat. rewrite refreshAccessToken_invalid by exact Hv.
  rewrite refresh_exchange_eq. cbv zeta.
  destruct (access_token (server (trace w) TokenRefresh)) as [t|]; [|reflexivity].
  cbn [str_truthy] in Hat. rewrite Hat. reflexivity.
Qed.

Lemma test_connection_state server account_server now w :
  snd (test_connection server account_server now w) = snd (refreshAccessToken server now w).
Proof.
  unfold test_connection.
  destruct (refreshAccessToken server now w) as [[t|e] w1]; [|reflexivity].
  destruct (acc_ok _); [destruct (acc_name _)|]; reflexivity.
Qed.

Lemma existsSync_fs_unlink w p q :
  existsSync (fs_unlink w p) q = if String.eqb q p then false else existsSync w q.
Proof. unfold existsSync, fs_unlink, set_fs. cbn [fs]. destruct (String.eqb q p); reflexivity. Qed.

Lemma unlink_staged_exists files : forall w q,
  existsSync (unlink_staged files w) q =
  existsSync w q && negb (existsb (String.eqb q) (map path files)).
Proof.
  induction files as [|f r IH]; intros w q; simpl.
  - rewrite andb_true_r. reflexivity.
  - rewrite IH. destruct (String.eqb q (path f)) eqn:Hq.
    + apply String.eqb_eq in Hq. subst q. destruct (existsSync w (path f)) eqn:He.
      * rewrite existsSync_fs_unlink, String.eqb_refl. reflexivity.
      * rewrite He. reflexivity.
    + destruct (existsSync w (path f)).
      * rewrite existsSync_fs_unlink, Hq. reflexivity.
      * reflexivity.
Qed.

(** ** [uploadToDropbox]: what reaches Dropbox *)

(** Against any server, a successful [uploadToDropbox] has sent the bytes
    of the file exactly once and in order (the concatenation of the bodies
    of its calls is the file); only its last call (single-shot upload or
    session finish) names a Dropbox path, [uploadPath/fileName], and the
    value returned is the metadata of the answer to that last call. *)
Theorem uploadToDropbox_sends_file server filePath fileName token w content v :
  fs w filePath = Some content ->
  fst (uploadToDropbox server filePath fileName token w) = Ok v ->
  exists calls last,
    trace (snd (uploadToDropbox server filePath fileName token w)) =
      trace w ++ calls ++ [last] /\
    concat (map call_body (calls ++ [last])) = content /\
    call_path last = Some (uploadPath ++ "/" ++ fileName)%string /\
    Forall (fun c => call_path c = None) calls /\
    v = metadata (server (trace w ++ calls) last).
Proof.
  intros Hfs Hv. unfold uploadToDropbox in *.
  exact (uploadToDropbox_with_content server CHUNK_SIZE filePath fileName token w content v
           CHUNK_SIZE_pos Hfs Hv).
Qed.

(** Against any server, every start or append call of [uploadToDropbox]
    carries at most [CHUNK_SIZE] bytes, and exactly [CHUNK_SIZE] bytes
    when another start or append call follows it. *)
Theorem uploadToDropbox_chunk_sizes server filePath fileName token w :
  exists calls,
    trace (snd (uploadToDropbox server filePath fileName token w)) = trace w ++ calls /\
    (forall pre c post, calls = pre ++ c :: post -> is_start c || is_append c = true ->
       body_len c <= N.to_nat CHUNK_SIZE /\
       (Exists (fun c' => is_start c' || is_append c' = true) post ->
          body_len c = N.to_nat CHUNK_SIZE)).
Proof.
  unfold uploadToDropbox, uploadToDropbox_with.
  destruct (fs w filePath) as [content|].
  2:{ exists []. rewrite app_nil_r. split; [reflexivity|].
      intros pre c post H. destruct pre; discriminate. }
  set (dropboxPath := (uploadPath ++ "/" ++ fileName)%string).
  destruct (N.of_nat (length content) <=? CHUNK_SIZE)%N.
  - exists [FilesUpload dropboxPath content]. unfold bind, fetch. cbn [fst snd].
    split.
    + destruct (ok _); reflexivity.
    + intros pre c post H Hk.
      destruct pre as [|c1 [|c2 pre1]]; simpl in H; injection H as <- H;
        try discriminate; discriminate Hk.
  - unfold bind, fetch.
    destruct (upload_chunks_bodies server (createReadStream CHUNK_SIZE content) None 0 w)
      as (lc & Hw & Hm & _ & _).
    assert (Hsz : forall pre c post, lc = pre ++ c :: post ->
              body_len c <= N.to_nat CHUNK_SIZE /\
              (post <> [] -> body_len c = N.to_nat CHUNK_SIZE)).
    { apply (bodies_sizes _ lc (createReadStream CHUNK_SIZE content) Hm).
      intros pre ch post E. unfold createReadStream in E.
      exact (read_chunks_sizes _ _ _ pre ch post E). }
    assert (Hex : forall post,
              Exists (fun c' => is_start c' || is_append c' = true) post -> post <> []).
    { intros post Hp E. subst post. inversion Hp. }
    destruct (upload_chunks server (createReadStream CHUNK_SIZE content) None 0 w)
      as [[st|e] w1]; cbn [fst snd] in Hw; subst w1; cbn [fst snd].
    + exists (lc ++ [SessionFinish (fst st) (snd st) dropboxPath]). split.
      * rewrite set_trace_trace, set_trace_twice, app_assoc. destruct (ok _); reflexivity.
      * intros pre c post H Hc.
        destruct (app_cons_split _ _ _ _ _ H) as [[pre' [-> E]]|[post' [E ->]]].
        -- destruct pre' as [|? [|? ?]]; simpl in E; injection E as <- E;
             try discriminate; discriminate Hc.
        -- destruct (Hsz pre c post' E) as [H1 H2]. split; [exact H1|].
           intros Hp. apply H2. apply Exists_app in Hp as [Hp|Hp]; [exact (Hex _ Hp)|].
           apply Exists_cons in Hp as [Hf|Hf]; [discriminate Hf|inversion Hf].
    + exists lc. split; [reflexivity|].
      intros pre c post H Hc. destruct (Hsz pre c post H) as [H1 H2].
      split; [exact H1|intros Hp; apply H2, Hex, Hp].
Qed.



(** ** The token cache *)

(** The token cache invariant (both variables set or both [null], and
    never an empty token) is kept by [refreshAccessToken], by the
    [/upload] route and by the [/test-connection] route. *)
Theorem token_cache_invariant server archive_zip account_server files formData now date w :
  token_inv w ->
  token_inv (snd (refreshAccessToken server now w)) /\
  token_inv (snd (relay server archive_zip files formData now date w)) /\
  token_inv (snd (test_connection server account_server now w)).
Proof.
  intros Hi. pose proof (refreshAccessToken_token_inv server now w Hi) as Hr.
  split; [exact Hr|split].
  - destruct files as [|f fr]; [exact Hi|].
    destruct (relay_after_token server archive_zip (f :: fr) formData now date w
                ltac:(discriminate)) as (calls & _ & _ & H1 & H2).
    exact (token_inv_ext _ _ H1 H2 Hr).
  - rewrite test_connection_state. exact Hr.
Qed.

(** A token obtained from the token endpoint at [now] is handed out again,
    with no call and no state change, by any later [refreshAccessToken] at
    a time [now'] before [now + expires_in * 1000]. *)
Theorem refreshAccessToken_reuse server now now' w t :
  ~ cache_valid w now ->
  access_token (server (trace w) TokenRefresh) = Some t -> t <> ""%string ->
  (0 <= now')%Z ->
  (now' < now + expires_in (server (trace w) TokenRefresh) * 1000)%Z ->
  refreshAccessToken server now' (snd (refreshAccessToken server now w)) =
    (Ok t, snd (refreshAccessToken server now w)).
Proof.
  intros Hv Ht Hne Hnow Hlt.
  destruct (refreshAccessToken_refresh server now w Hv) as (_ & _ & Hok).
  destruct (Hok t Ht Hne) as (_ & Hat & Hte).
  exact (refreshAccessToken_valid server now' _ t _ Hnow Hat Hne Hte Hlt).
Qed.

(** ** The [/upload] route *)


(** When the route answers 200, neither any staged file nor the archive
    is left on disk. *)
Theorem relay_success_cleans_up server archive_zip files formData now date w b :
  fst (relay server archive_zip files formData now date w) = Responded 200 b ->
  (forall f, In f files ->
     existsSync (snd (relay server archive_zip files formData now date w)) (path f) = false) /\
  existsSync (snd (relay server archive_zip files formData now date w))
    (archivePath date formData) = false.
Proof.
  intros Hr. unfold relay in *. destruct files as [|f0 fr]; [discriminate Hr|].
  destruct (refreshAccessToken server now w) as [[token|e] w1]; [|discriminate Hr].
  destruct (archive_zip _ _) as [zip|]; [|discriminate Hr].
  destruct (uploadToDropbox _ _ _ _ _) as [[v|e] w3]; [|discriminate Hr].
  cbn [snd].
  set (w4 := unlink_staged (f0 :: fr) w3).
  set (apath := archivePath date formData).
  assert (Hw4 : forall q,
            existsSync (if existsSync w4 apath then fs_unlink w4 apath else w4) q =
            existsSync w4 q && negb (String.eqb q apath)).
  { intros q. destruct (existsSync w4 apath) eqn:Ha.
    - rewrite existsSync_fs_unlink.
      destruct (String.eqb q apath); [rewrite andb_false_r; reflexivity|rewrite andb_true_r; reflexivity].
    - destruct (String.eqb q apath) eqn:Hq.
      + apply String.eqb_eq in Hq. subst q. rewrite Ha. reflexivity.
      + rewrite andb_true_r. reflexivity. }
  split.
  - intros f Hin. rewrite Hw4. unfold w4. rewrite unlink_staged_exists.
    assert (Hx : existsb (String.eqb (path f)) (map path (f0 :: fr)) = true).
    { apply existsb_exists. exists (path f). split; [apply in_map, Hin|apply String.eqb_refl]. }
    rewrite Hx, andb_false_r. reflexivity.
  - rewrite Hw4, String.eqb_refl, andb_false_r. reflexivity.
Qed.

(** When the route answers 200, the calls it made after the token step
    sent exactly the bytes the archiver produced from the staged files and
    [informations.txt], and the last of them wrote
    [uploadPath/archiveName]. *)
Theorem relay_uploads_archive server archive_zip files formData now date w b zip :
  archive_zip (map (fun f => (originalname f, fs w (path f))) files)
    (infoContent formData) = Some zip ->
  fst (relay server archive_zip files formData now date w) = Responded 200 b ->
  exists calls last,
    trace (snd (relay server archive_zip files formData now date w)) =
      trace (snd (refreshAccessToken server now w)) ++ calls ++ [last] /\
    concat (map call_body (calls ++ [last])) = zip /\
    call_path last = Some (uploadPath ++ "/" ++ archiveName date formData)%string.
Proof.
  intros Hz Hr. unfold relay in *. destruct files as [|f0 fr]; [discriminate Hr|].
  pose proof (refreshAccessToken_fs server now w) as Hfs.
  destruct (refreshAccessToken server now w) as [[token|e] w1]; [|discriminate Hr].
  cbn [fst snd] in Hfs, Hr |- *.
  rewrite Hfs in Hr |- *. rewrite Hz in Hr |- *.
  set (w2 := fs_write w1 (archivePath date formData) zip) in *.
  assert (Hw2 : fs w2 (archivePath date formData) = Some zip).
  { unfold w2, fs_write, set_fs. cbn [fs]. rewrite String.eqb_refl. reflexivity. }
  unfold uploadToDropbox in *.
  destruct (uploadToDropbox_with server CHUNK_SIZE (archivePath date formData)
              (archiveName date formData) token w2) as [[v|e] w3] eqn:Hu;
    [|discriminate Hr].
  destruct (uploadToDropbox_with_content server CHUNK_SIZE (archivePath date formData)
              (archiveName date formData) token w2 zip v CHUNK_SIZE_pos Hw2)
    as (calls & last & Ht & Hc & Hp & _ & _); [rewrite Hu; reflexivity|].
  rewrite Hu in Ht. cbn [snd] in Ht.
  destruct (unlink_staged_keeps (f0 :: fr) w3) as (Hk & _ & _).
  exists calls, last. cbn [snd]. split; [|split; [exact Hc|exact Hp]].
  transitivity (trace (unlink_staged (f0 :: fr) w3));
    [destruct (existsSync _ _); reflexivity|].
  rewrite Hk, Ht. reflexivity.
Qed.


(** ** The [/test-connection] route *)

(** The route changes the process state exactly as [refreshAccessToken]
    does (the disk is untouched), and reports success exactly when a token
    was obtained and the account endpoint answered ok with a [name]. *)
Theorem test_connection_outcome server account_server now w :
  snd (test_connection server account_server now w) = snd (refreshAccessToken server now w) /\
  (fst (fst (test_connection server account_server now w)) = true <->
     (exists t, fst (refreshAccessToken server now w) = Ok t) /\
     acc_ok (account_server (trace (snd (refreshAccessToken server now w)))) = true /\
     acc_name (account_server (trace (snd (refreshAccessToken server now w)))) <> None).
Proof.
  split; [apply test_connection_state|].
  unfold test_connection.
  destruct (refreshAccessToken server now w) as [[t|e] w1]; cbn [fst snd].
  - destruct (acc_ok (account_server (trace w1))), (acc_name (account_server (trace w1)));
      cbn [fst].
    + split; [intros _; split; [eexists; reflexivity|split; [reflexivity|discriminate]]
             |intros _; reflexivity].
    + split; [intros H; discriminate H|intros (_ & _ & H); congruence].
    + split; [intros H; discriminate H|intros (_ & H & _); discriminate H].
    + split; [intros H; discriminate H|intros (_ & H & _); discriminate H].
  - split; [intros H; discriminate H|intros ([t H] & _); discriminate H].
Qed.

(** When the cache cannot serve [now] and the token endpoint gives no
    usable token, the route answers [success:false] with
    ["Erreur de connexion: Impossible d'obtenir le token"] after that one
    call, and the account endpoint is not consulted. *)
Theorem test_connection_token_failure server account_server now w :
  ~ cache_valid w now ->
  str_truthy (access_token (server (trace w) TokenRefresh)) = false ->
  test_connection server account_server now w =
    ((false, "Erreur de connexion: Impossible d'obtenir le token"%string),
     set_trace w (trace w ++ [TokenRefresh])).
Proof.
  intros Hv Hat. unfold test_connection.
  rewrite refreshAccessToken_no_token by assumption. reflexivity.
Qed.

(** A [/test-connection] that obtains a token fills the cache: an
    [/upload] request with files arriving before the token's expiry makes
    no call to the token endpoint. *)
Theorem test_connection_primes_cache server account_server archive_zip files formData
    now now' date w t :
  ~ cache_valid w now ->
  access_token (server (trace w) TokenRefresh) = Some t -> t <> ""%string ->
  (0 <= now')%Z ->
  (now' < now + expires_in (server (trace w) TokenRefresh) * 1000)%Z ->
  files <> [] ->
  exists calls,
    trace (snd (relay server archive_zip files formData now' date
                  (snd (test_connection server account_server now w)))) =
      trace w ++ TokenRefresh :: calls /\
    count is_token calls = 0.
Proof.
  intros Hv Ht Hne Hnow Hlt Hf.
  rewrite test_connection_state.
  destruct (refreshAccessToken_refresh server now w Hv) as (Htr & _ & Hok).
  destruct (Hok t Ht Hne) as (_ & Hat & Hte).
  set (w1 := snd (refreshAccessToken server now w)) in *.
  destruct (relay_after_token server archive_zip files formData now' date w1 Hf)
    as (calls & Hc & Hz & _).
  rewrite (refreshAccessToken_valid server now' w1 t _ Hnow Hat Hne Hte Hlt) in Hc.
  exists calls. rewrite Hc. cbn [snd]. rewrite Htr, <- app_assoc.
  split; [reflexivity|exact Hz].
Qed.

(** ** Witnesses for the further properties *)

Lemma uploadToDropbox_sends_file_witness :
  fs staged_world "./uploads/1_stem.wav"%string = Some [Byte.x01; Byte.x02; Byte.x03] /\
  fst (uploadToDropbox accepting_server "./uploads/1_stem.wav" "stem.zip" "sl.token"
         staged_world) = Ok "{}"%string /\
  exists calls last,
    trace (snd (uploadToDropbox accepting_server "./uploads/1_stem.wav" "stem.zip"
                  "sl.token" staged_world)) = trace staged_world ++ calls ++ [last] /\
    concat (map call_body (calls ++ [last])) = [Byte.x01; Byte.x02; Byte.x03].
Proof.
  assert (H1 : fs staged_world "./uploads/1_stem.wav"%string
               = Some [Byte.x01; Byte.x02; Byte.x03]) by reflexivity.
  assert (H2 : fst (uploadToDropbox accepting_server "./uploads/1_stem.wav" "stem.zip"
                      "sl.token" staged_world) = Ok "{}"%string) by (vm_compute; reflexivity).
  split; [exact H1|split; [exact H2|]].
  destruct (uploadToDropbox_sends_file accepting_server _ _ _ staged_world _ _ H1 H2)
    as (calls & last & Ht & Hc & _).
  exists calls, last. split; [exact Ht|exact Hc].
Defined.



Lemma token_cache_invariant_witness :
  token_inv staged_world /\
  token_inv (snd (relay accepting_server zip_ok [staged_file] no_fields 1000 sample_date
                    staged_world)).
Proof.
  assert (Hi : token_inv staged_world).
  { unfold token_inv. cbn. split; [tauto|intros t H; discriminate H]. }
  split; [exact Hi|].
  exact (proj1 (proj2 (token_cache_invariant accepting_server zip_ok account_known
                         [staged_file] no_fields 1000 sample_date staged_world Hi))).
Defined.

Lemma refreshAccessToken_reuse_witness :
  ~ cache_valid staged_world 1000 /\
  access_token (accepting_server (trace staged_world) TokenRefresh) = Some "sl.token"%string /\
  "sl.token"%string <> ""%string /\
  (0 <= 5000)%Z /\
  (5000 < 1000 + expires_in (accepting_server (trace staged_world) TokenRefresh) * 1000)%Z /\
  refreshAccessToken accepting_server 5000
    (snd (refreshAccessToken accepting_server 1000 staged_world)) =
    (Ok "sl.token"%string, snd (refreshAccessToken accepting_server 1000 staged_world)).
Proof.
  assert (H1 : ~ cache_valid staged_world 1000) by (intros (t & e & Ht & _); discriminate).
  assert (H2 : access_token (accepting_server (trace staged_world) TokenRefresh)
               = Some "sl.token"%string) by reflexivity.
  assert (H3 : "sl.token"%string <> ""%string) by discriminate.
  assert (H4 : (0 <= 5000)%Z) by lia.
  assert (H5 : (5000 < 1000 + expires_in (accepting_server (trace staged_world) TokenRefresh)
                             * 1000)%Z) by (vm_compute; reflexivity).
  repeat (split; [assumption|]).
  exact (refreshAccessToken_reuse accepting_server 1000 5000 staged_world "sl.token"
           H1 H2 H3 H4 H5).
Defined.

Lemma relay_success_cleans_up_witness :
  fst (relay accepting_server zip_ok [staged_file] no_fields 1000 sample_date staged_world) =
    Responded 200 (ROk "Upload réussi"%string (archiveName sample_date no_fields) 1 3) /\
  existsSync (snd (relay accepting_server zip_ok [staged_file] no_fields 1000 sample_date
                     staged_world)) (path staged_file) = false.
Proof.
  assert (Hr : fst (relay accepting_server zip_ok [staged_file] no_fields 1000 sample_date
                      staged_world) =
               Responded 200 (ROk "Upload réussi"%string (archiveName sample_date no_fields) 1 3))
    by (vm_compute; reflexivity).
  split; [exact Hr|].
  exact (proj1 (relay_success_cleans_up accepting_server zip_ok [staged_file] no_fields 1000
                  sample_date staged_world _ Hr) staged_file (or_introl eq_refl)).
Defined.

Lemma relay_uploads_archive_witness :
  zip_ok (map (fun f => (originalname f, fs staged_world (path f))) [staged_file])
    (infoContent no_fields) = Some [Byte.x50; Byte.x4b] /\
  fst (relay accepting_server zip_ok [staged_file] no_fields 1000 sample_date staged_world) =
    Responded 200 (ROk "Upload réussi"%string (archiveName sample_date no_fields) 1 3) /\
  exists calls last,
    trace (snd (relay accepting_server zip_ok [staged_file] no_fields 1000 sample_date
                  staged_world)) =
      trace (snd (refreshAccessToken accepting_server 1000 staged_world)) ++ calls ++ [last] /\
    concat (map call_body (calls ++ [last])) = [Byte.x50; Byte.x4b].
Proof.
  assert (Hz : zip_ok (map (fun f => (originalname f, fs staged_world (path f))) [staged_file])
                 (infoContent no_fields) = Some [Byte.x50; Byte.x4b]) by reflexivity.
  assert (Hr : fst (relay accepting_server zip_ok [staged_file] no_fields 1000 sample_date
                      staged_world) =
               Responded 200 (ROk "Upload réussi"%string (archiveName sample_date no_fields) 1 3))
    by (vm_compute; reflexivity).
  split; [exact Hz|split; [exact Hr|]].
  destruct (relay_uploads_archive accepting_server zip_ok [staged_file] no_fields 1000
              sample_date staged_world _ _ Hz Hr) as (calls & last & Ht & Hc & _).
  exists calls, last. split; [exact Ht|exact Hc].
Defined.

Lemma test_connection_token_failure_witness :
  ~ cache_valid staged_world 1000 /\
  str_truthy (access_token (tokenless_server (trace staged_world) TokenRefresh)) = false /\
  fst (test_connection tokenless_server account_known 1000 staged_world) =
    (false, "Erreur de connexion: Impossible d'obtenir le token"%string).
Proof.
  assert (Hv : ~ cache_valid staged_world 1000) by (intros (t & e & Ht & _); discriminate).
  split; [exact Hv|split; [reflexivity|]].
  rewrite (test_connection_token_failure tokenless_server account_known 1000 staged_world
             Hv eq_refl).
  reflexivity.
Defined.

Lemma test_connection_primes_cache_witness :
  ~ cache_valid staged_world 1000 /\
  access_token (accepting_server (trace staged_world) TokenRefresh) = Some "sl.token"%string /\
  "sl.token"%string <> ""%string /\
  (0 <= 5000)%Z /\
  (5000 < 1000 + expires_in (accepting_server (trace staged_world) TokenRefresh) * 1000)%Z /\
  [staged_file] <> [] /\
  exists calls,
    trace (snd (relay accepting_server zip_ok [staged_file] no_fields 5000 sample_date
                  (snd (test_connection accepting_server account_known 1000 staged_world)))) =
      trace staged_world ++ TokenRefresh :: calls /\
    count is_token calls = 0.
Proof.
  assert (H1 : ~ cache_valid staged_world 1000) by (intros (t & e & Ht & _); discriminate).
  assert (H2 : access_token (accepting_server (trace staged_world) TokenRefresh)
               = Some "sl.token"%string) by reflexivity.
  assert (H3 : "sl.token"%string <> ""%string) by discriminate.
  assert (H4 : (0 <= 5000)%Z) by lia.
  assert (H5 : (5000 < 1000 + expires_in (accepting_server (trace staged_world) TokenRefresh)
                             * 1000)%Z) by (vm_compute; reflexivity).
  assert (H6 : [staged_file] <> []) by discriminate.
  repeat (split; [assumption|]).
  exact (test_connection_primes_cache accepting_server account_known zip_ok [staged_file]
           no_fields 1000 5000 sample_date staged_world "sl.token" H1 H2 H3 H4 H5 H6).
Defined.
